(** * Garbage collection of pipeline activities ([jx gc activities])

    A shallow embedding of [GCActivitiesOptions.Run] from
    [pkg/jx/cmd/gc_activities.go] together with the pull-refs parser that
    [pkg/prow] exposes as [ParsePullRefs], and the properties the design
    document states about them.

    The command walks over every stored activity once, deleting expired
    pull-request activities and activities without a Jenkins job as it goes,
    collects the build numbers of the others per pipeline, and then trims every
    pipeline down to its revision history limit. Deletions are calls on the
    cluster client, so they are modelled as effects on a store; the sequence
    of [Delete] calls, tagged with the call site, is the deletion plan. *)

From Stdlib Require Import ZArith String Ascii List Lia.
From stdpp Require Import base option list sorting strings pretty gmap fin_maps.

Local Open Scope Z_scope.

(** ** Machine integers

    Go's [int] is 64 bits wide on the platforms jx is built for, and signed
    arithmetic wraps around silently. *)

Definition int_min : Z := - 2 ^ 63.
Definition int_max : Z := 2 ^ 63 - 1.

Definition is_int (z : Z) : Prop := int_min <= z <= int_max.

Definition in_int (z : Z) : bool := (int_min <=? z) && (z <=? int_max).

Definition wrap_int (z : Z) : Z := (z + 2 ^ 63) mod 2 ^ 64 - 2 ^ 63.

(** [len(s)] of a slice, as an [int]. *)
Definition len {A : Type} (l : list A) : Z := Z.of_nat (length l).

(** ** Time

    A [time.Time] is an instant, counted here in nanoseconds; a
    [time.Duration] is an [int64] number of nanoseconds. *)

Definition Time : Type := Z.
Definition Duration : Type := Z.

Definition Hour : Duration := 3600000000000.

(** [time.Duration(h) * time.Hour]: a multiplication of two [int64]. *)
Definition hours (h : Z) : Duration := wrap_int (h * Hour).

Definition Add (t : Time) (d : Duration) : Time := t + d.

Definition Before (t u : Time) : bool := t <? u.

(** ** Strings

    Go strings are byte sequences, as are Rocq's. *)

Local Open Scope string_scope.

(** [strings.Contains]. *)
Fixpoint Contains (s substr : string) : bool :=
  String.prefix substr s ||
  match s with
  | EmptyString => false
  | String _ s' => Contains s' substr
  end.

(** [strings.Replace(s, old, new, -1)] for the one-byte [old] and [new] that
    [Run] passes. *)
Fixpoint Replace (s : string) (old new : ascii) : string :=
  match s with
  | EmptyString => EmptyString
  | String c s' =>
      String (if Ascii.eqb c old then new else c) (Replace s' old new)
  end.

Definition is_upper (c : ascii) : bool :=
  let n := N_of_ascii c in (65 <=? n)%N && (n <=? 90)%N.

(** [c += 'a' - 'A'] on an upper-case ASCII letter. *)
Definition lower_byte (c : ascii) : ascii :=
  if is_upper c then ascii_of_N (N_of_ascii c + 32) else c.

Fixpoint lower_ascii (s : string) : string :=
  match s with
  | EmptyString => EmptyString
  | String c s' => String (lower_byte c) (lower_ascii s')
  end.

(** A byte below [utf8.RuneSelf]. *)
Definition is_ascii_byte (c : ascii) : bool := (N_of_ascii c <? 128)%N.

Fixpoint isASCII (s : string) : bool :=
  match s with
  | EmptyString => true
  | String c s' => is_ascii_byte c && isASCII s'
  end.

(** [strings.ToLower]: ASCII-only strings are lowered byte by byte; any other
    string goes rune by rune through the Unicode case tables, which are data
    of the Go distribution and are taken here as the parameter
    [unicode_lower]. *)
Definition ToLower (unicode_lower : string -> string) (s : string) : string :=
  if isASCII s then lower_ascii s else unicode_lower s.

(** [fmt.Sprintf("%s-%v", s, n)] with a string and an [int]. *)
Definition Sprintf_s_v (s : string) (n : Z) : string :=
  s ++ "-" ++ pretty n.

(** *** [strconv.Atoi]

    An optional sign followed by at least one decimal digit, the value within
    the range of [int]; anything else is a [*strconv.NumError]. *)

Definition digit_of (c : ascii) : option Z :=
  let n := N_of_ascii c in
  if (48 <=? n)%N && (n <=? 57)%N then Some (Z.of_N n - 48)%Z else None.

Fixpoint parse_digits (s : string) (n : Z) : option Z :=
  match s with
  | EmptyString => Some n
  | String ch s' =>
      match digit_of ch with
      | Some d => parse_digits s' (n * 10 + d)%Z
      | None => None
      end
  end.

Definition parse_unsigned (s : string) : option Z :=
  match s with
  | EmptyString => None
  | _ => parse_digits s 0%Z
  end.

Definition Atoi (s : string) : option Z :=
  match s with
  | EmptyString => None
  | String c s' =>
      let neg := Ascii.eqb c "-" in
      let digits := if neg || Ascii.eqb c "+" then s' else s in
      match parse_unsigned digits with
      | Some n =>
          let v := if neg then (- n)%Z else n in
          if in_int v then Some v else None
      | None => None
      end
  end.

Local Close Scope string_scope.

(** ** Data model *)

(** The fields of a [PipelineActivity] that [Run] reads: [a.Name],
    [a.Spec.Pipeline], [a.Spec.Build] and [a.Spec.CompletedTimestamp]
    ([nil] while the run is in progress). *)
Record PipelineActivity : Type := {
  Name : string;
  Pipeline : string;
  Build : string;
  CompletedTimestamp : option Time
}.

Record GCActivitiesOptions : Type := {
  RevisionHistoryLimit : Z;
  PullRequestHours : Z
}.

(** The three [Delete] call sites of [Run]. *)
Inductive Reason : Type := AgeExpired | Orphaned | OverLimit.

#[global] Instance Reason_eq_dec : EqDecision Reason.
Proof. solve_decision. Defined.

(** One entry of the deletion plan. *)
Definition Deletion : Type := string * Reason.

Inductive Error : Type :=
| NumError (s : string)        (* [strconv.Atoi] rejected [s] *)
| ClientError (name : string)  (* [Delete(name)] failed, returned as it is *)
| FailedToDelete (name : string). (* "failed to delete activity ..." *)

Inductive Outcome (A : Type) : Type :=
| Done (a : A)
| Fail (e : Error)
| Panic. (* index out of range *)

Arguments Done {A} a.
Arguments Fail {A} e.
Arguments Panic {A}.

(** ** Collaborators *)

(** The activity client, [client.JenkinsV1().PipelineActivities(ns)]:
    [Delete name s] is the store after the call, or [None] when the call
    returns an error. *)
Class ActivityStore (St : Type) : Type :=
  Delete : string -> St -> option St.

(** What the Go runtime and distribution decide: the reading of the clock at
    the n-th call of [time.Now], the order in which a [range] over a map
    visits its entries, and the Unicode lower-case mapping. *)
Record Runtime : Type := {
  Now : nat -> Time;
  RangeOrder : gmap string (list Z) -> list (string * list Z);
  UnicodeLower : string -> string
}.

(** A [range] visits every entry of the map exactly once. *)
Definition range_valid (rt : Runtime) : Prop :=
  forall m, RangeOrder rt m ≡ₚ map_to_list m.

(** The state a run threads: the store, the number of clock readings taken,
    and the [Delete] calls issued so far. *)
Record World (St : Type) : Type := mkWorld {
  store : St;
  ticks : nat;
  plan : list Deletion
}.

Arguments mkWorld {St} store ticks plan.
Arguments store {St} w.
Arguments ticks {St} w.
Arguments plan {St} w.

Definition start {St : Type} (s : St) : World St := mkWorld s O [].

(** ** The command as a state-and-error computation

    The state survives an error: what was deleted before a [return err]
    stays deleted. *)

Definition M (St A : Type) : Type := World St -> Outcome A * World St.

Definition ret {St A : Type} (a : A) : M St A := fun w => (Done a, w).

Definition bind {St A B : Type} (m : M St A) (k : A -> M St B) : M St B :=
  fun w =>
    match m w with
    | (Done a, w') => k a w'
    | (Fail e, w') => (Fail e, w')
    | (Panic, w') => (Panic, w')
    end.

Definition raise {St A : Type} (e : Error) : M St A := fun w => (Fail e, w).

Definition panic {St A : Type} : M St A := fun w => (Panic, w).

Declare Scope gc_scope.
Delimit Scope gc_scope with gc.
Notation "x <- m ;; k" := (bind m (fun x => k))
  (at level 100, m at next level, right associativity) : gc_scope.
Notation "m ;; k" := (bind m (fun _ => k))
  (at level 100, right associativity) : gc_scope.

Local Open Scope gc_scope.

Section Command.

Context {St : Type} `{!ActivityStore St}.
Variable o : GCActivitiesOptions.
Variable rt : Runtime.

(** [time.Now()]. *)
Definition timeNow : M St Time :=
  fun w => (Done (Now rt (ticks w)), mkWorld (store w) (S (ticks w)) (plan w)).

(** A [Delete] call followed by [if err != nil { return onErr }]. *)
Definition deleteActivity (name : string) (why : Reason) (onErr : Error) : M St unit :=
  fun w =>
    let issued := plan w ++ [(name, why)] in
    match Delete name (store w) with
    | Some s' => (Done tt, mkWorld s' (ticks w) issued)
    | None => (Fail onErr, mkWorld (store w) (ticks w) issued)
    end.

(** [strconv.Atoi] followed by [if err != nil { return err }]. *)
Definition atoi (s : string) : M St Z :=
  match Atoi s with
  | Some n => ret n
  | None => raise (NumError s)
  end.

(** The condition of the pull-request branch, lines 112-113. The clock is
    read only when the name has the marker and the timestamp is set. *)
Definition expired (a : PipelineActivity) : M St bool :=
  if Contains (Name a) "-pr-" then
    match CompletedTimestamp a with
    | Some t =>
        now <- timeNow ;;
        ret (Before (Add t (hours (PullRequestHours o))) now)
    | None => ret false
    end
  else ret false.

(** The search for the activity's pipeline among the job names. *)
Definition matched (a : PipelineActivity) (jobNames : list string) : bool :=
  existsb (String.eqb (Pipeline a)) jobNames.

(** The body of the loop over the activities. *)
Definition visit (prowEnabled : bool) (jobNames : list string)
    (a : PipelineActivity) (activityBuilds : gmap string (list Z))
  : M St (gmap string (list Z)) :=
  old <- expired a ;;
  if old then
    deleteActivity (Name a) AgeExpired (ClientError (Name a)) ;;
    ret activityBuilds (* continue *)
  else
    (if negb prowEnabled then
       if negb (matched a jobNames)
       then deleteActivity (Name a) Orphaned (ClientError (Name a))
       else ret tt
     else ret tt) ;;
    buildNumber <- atoi (Build a) ;;
    ret (<[Pipeline a :=
             default [] (activityBuilds !! Pipeline a) ++ [buildNumber]]>
           activityBuilds).

Fixpoint scan (prowEnabled : bool) (jobNames : list string)
    (items : list PipelineActivity) (activityBuilds : gmap string (list Z))
  : M St (gmap string (list Z)) :=
  match items with
  | [] => ret activityBuilds
  | a :: rest =>
      activityBuilds' <- visit prowEnabled jobNames a activityBuilds ;;
      scan prowEnabled jobNames rest activityBuilds'
  end.

(** [sort.Ints]. *)
Definition sortInts (builds : list Z) : list Z := merge_sort Z.le builds.

(** The name under which the revision cap deletes a build, lines 155-158. *)
Definition activityName (pipeline : string) (build : Z) : string :=
  let activityName := Sprintf_s_v pipeline build in
  let activityName := Replace activityName "/" "-" in
  let activityName := Replace activityName "_" "-" in
  ToLower (UnicodeLower rt) activityName.

(** The inner loop, lines 153-166, from index [i] on. Every turn either
    stops, panics or moves [i] one step towards [len builds], so
    [length builds + 1] turns always suffice ([capLoop_fuel]). *)
Fixpoint capLoop (pipeline : string) (builds : list Z) (fuel : nat) (i : Z)
  : M St unit :=
  match fuel with
  | O => ret tt
  | S fuel' =>
      if i <? wrap_int (len builds - RevisionHistoryLimit o) then
        match builds !! Z.to_nat i with
        | None => panic
        | Some b =>
            let name := activityName pipeline b in
            deleteActivity name OverLimit (FailedToDelete name) ;;
            capLoop pipeline builds fuel' (i + 1)
        end
      else ret tt
  end.

(** The body of the loop over the map. *)
Definition capGroup (pipeline : string) (builds : list Z) : M St unit :=
  let builds := sortInts builds in
  capLoop pipeline builds (S (length builds)) 0.

Fixpoint capAll (groups : list (string * list Z)) : M St unit :=
  match groups with
  | [] => ret tt
  | (pipeline, builds) :: rest =>
      capGroup pipeline builds ;; capAll rest
  end.

(** [Run], from the point where the activities, the prow flag and the
    Jenkins job names have been fetched; each of those fetches returns its
    error before anything is deleted. [jobs] is what Jenkins would list; it
    is only asked when prow is not enabled. *)
Definition Run (items : list PipelineActivity) (prowEnabled : bool)
    (jobs : list string) : M St unit :=
  match items with
  | [] => ret tt
  | _ =>
      let jobNames := if prowEnabled then [] else jobs in
      activityBuilds <- scan prowEnabled jobNames items ∅ ;;
      capAll (RangeOrder rt activityBuilds)
  end.

End Command.

Arguments Run {St _} o rt items prowEnabled jobs w.

(** ** Two stores *)

(** A store that accepts every [Delete]: what is left of a run is its plan. *)
#[global] Instance accept_all : ActivityStore unit :=
  fun _ s => Some s.

(** The cluster: the names of the stored activities. Deleting a name that is
    not stored is an error (not found). *)
#[global] Instance cluster : ActivityStore (list string) :=
  fun name s =>
    if existsb (String.eqb name) s
    then Some (filter (fun n => n ≠ name) s)
    else None.

(** ** Two runtimes for examples

    A clock that stands still at [now] and Unicode lowering left out, with
    the map entries visited in key order and in reverse key order. *)

Definition steady (now : Time) : Runtime :=
  {| Now := fun _ => now;
     RangeOrder := fun m => map_to_list m;
     UnicodeLower := fun s => s |}.

Definition steady_rev (now : Time) : Runtime :=
  {| Now := fun _ => now;
     RangeOrder := fun m => reverse (map_to_list m);
     UnicodeLower := fun s => s |}.

(** ** What a visit decides, read off the loop body *)

(** The condition of lines 112-113 at a clock reading [now]. *)
Definition age_expired (o : GCActivitiesOptions) (now : Time)
    (a : PipelineActivity) : bool :=
  Contains (Name a) "-pr-" &&
  match CompletedTimestamp a with
  | Some t => Before (Add t (hours (PullRequestHours o))) now
  | None => false
  end.

(** How often the condition of lines 112-113 reads the clock. *)
Definition readings (a : PipelineActivity) : nat :=
  if Contains (Name a) "-pr-" then
    match CompletedTimestamp a with Some _ => 1%nat | None => 0%nat end
  else 0%nat.

(** The state once that condition has been evaluated. *)
Definition after_check {St : Type} (a : PipelineActivity) (w : World St)
  : World St :=
  mkWorld (store w) (ticks w + readings a) (plan w).

(** The condition under which line 132 is reached and executed. *)
Definition orphan (prowEnabled : bool) (jobNames : list string)
    (a : PipelineActivity) : bool :=
  negb prowEnabled && negb (matched a jobNames).

(** The [Delete] calls one turn of the first loop issues. *)
Definition visit_deletions (o : GCActivitiesOptions) (now : Time)
    (prowEnabled : bool) (jobNames : list string) (a : PipelineActivity)
  : list Deletion :=
  if age_expired o now a then [(Name a, AgeExpired)]
  else if orphan prowEnabled jobNames a then [(Name a, Orphaned)]
  else [].

(** What the first loop may issue for a list of activities. *)
Definition first_pass (prowEnabled : bool) (jobNames : list string)
    (items : list PipelineActivity) (d : Deletion) : Prop :=
  exists a, a ∈ items /\ d.1 = Name a /\
    (d.2 = AgeExpired \/
     (d.2 = Orphaned /\ prowEnabled = false /\ Pipeline a ∉ jobNames)).

(** The [Delete] calls issued between two states of a run. *)
Definition issued {St : Type} (w w' : World St) : list Deletion :=
  drop (length (plan w)) (plan w').

(** The entries the inner loop of the revision cap appends for one pipeline
    when it runs to its end: one per sorted build below the loop bound. *)
Definition over_limit (o : GCActivitiesOptions) (rt : Runtime)
    (pipeline : string) (builds : list Z) : list Deletion :=
  (fun b => (activityName rt pipeline b, OverLimit)) <$>
  take (Z.to_nat (wrap_int (len builds - RevisionHistoryLimit o)))
       (sortInts builds).

(** The options with the default pull-request window of the command line and
    a given revision history limit. *)
Definition keep (limit : Z) : GCActivitiesOptions :=
  {| RevisionHistoryLimit := limit; PullRequestHours := 48 |}.

(** Every [/] and every [_] of a string replaced by [-]. *)
Fixpoint dash_separators (s : string) : string :=
  match s with
  | EmptyString => EmptyString
  | String c s' =>
      String (if Ascii.eqb c "/" || Ascii.eqb c "_" then "-"%char else c)
             (dash_separators s')
  end.

(** The deletion target name in the words of the design document:
    [lowercase(pipeline + "-" + buildNumber)] with every [/] and [_] in the
    concatenation replaced by [-]. *)
Definition spec_target_name (rt : Runtime) (pipeline : string) (build : Z)
  : string :=
  ToLower (UnicodeLower rt)
    (dash_separators (pipeline ++ "-" ++ pretty build)%string).

(** What the Unicode case tables are relied on for: lowering neither creates
    nor removes a [/] or a [_], and leaves [-] alone. *)
Definition keeps_separators (f : string -> string) : Prop :=
  forall (s : string) (c : ascii),
    c = "/"%char \/ c = "_"%char ->
    f (Replace s c "-") = Replace (f s) c "-".

(** The age-expiry rule in the words of the design document: the record has
    a [completedAt], and [completedAt + prHours hours < now]. *)
Definition spec_age_expired (o : GCActivitiesOptions) (now : Time)
    (a : PipelineActivity) : Prop :=
  exists t : Time,
    CompletedTimestamp a = Some t /\ t + PullRequestHours o * Hour < now.

(** ** The pull-refs parser

    [prow.ParsePullRefs] is exercised by [TestParsePullRefs]; its body is not
    part of the sources at hand. *)

(** Modelled from the spec: the record [RefSet] ([prow.PullRefs] in the
    test), whose declaration is missing: the base branch, the base sha and a
    mapping from change identifier to commit sha with unique keys. *)
Record RefSet : Type := {
  baseBranch : string;
  baseSha : string;
  toMerge : gmap string string
}.

(** Modelled from the spec: the first step of the splitting rule of
    [parseRefSet], "split on [,] first to obtain pairs". *)
Fixpoint split_on (sep : ascii) (s : string) : list string :=
  match s with
  | EmptyString => [EmptyString]
  | String c s' =>
      if Ascii.eqb c sep then EmptyString :: split_on sep s'
      else
        match split_on sep s' with
        | [] => [String c EmptyString]
        | x :: xs => String c x :: xs
        end
  end.

(** Modelled from the spec: the second step of the splitting rule of
    [parseRefSet], "split each pair on the first [:] to obtain key/value";
    [None] when the pair lacks a [:]. *)
Fixpoint cut (sep : ascii) (s : string) : option (string * string) :=
  match s with
  | EmptyString => None
  | String c s' =>
      if Ascii.eqb c sep then Some (EmptyString, s')
      else
        match cut sep s' with
        | Some (k, v) => Some (String c k, v)
        | None => None
        end
  end.

(** Modelled from the spec: the mapping [toMerge] that [parseRefSet] builds
    from the pairs after the first, entered one after the other. *)
Definition merge_map (merges : list (string * string)) : gmap string string :=
  foldl (fun m kv => <[kv.1 := kv.2]> m) ∅ merges.

(** Modelled from the spec: [parseRefSet] ([prow.ParsePullRefs]), whose body
    is missing. It fails ([None], the [ParseError]) if the input is empty, if
    any pair lacks a [:], or if fewer than one pair is present; the first
    pair is the base branch and its sha, every further pair a change
    identifier and its commit sha. *)
Definition parseRefSet (input : string) : option RefSet :=
  if decide (input = EmptyString) then None
  else
    match mapM (cut ":") (split_on "," input) with
    | Some ((k0, v0) :: merges) =>
        Some {| baseBranch := k0; baseSha := v0; toMerge := merge_map merges |}
    | _ => None
    end.

(** A key or a value free of [:] and [,]. *)
Fixpoint plain (s : string) : bool :=
  match s with
  | EmptyString => true
  | String c s' =>
      negb (Ascii.eqb c ":") && negb (Ascii.eqb c ",") && plain s'
  end.

(** A pair, or a key or value, free of [,]. *)
Fixpoint comma_free (s : string) : bool :=
  match s with
  | EmptyString => true
  | String c s' => negb (Ascii.eqb c ",") && comma_free s'
  end.

(** The encoding ["k0:v0,k1:v1,...,kN:vN"] of a base pair and merge pairs. *)
Definition encode_pair (kv : string * string) : string :=
  (kv.1 ++ String ":" kv.2)%string.

Fixpoint join (sep : ascii) (l : list string) : string :=
  match l with
  | [] => EmptyString
  | [x] => x
  | x :: rest => (x ++ String sep (join sep rest))%string
  end.

Definition encodeRefSet (base : string * string)
    (merges : list (string * string)) : string :=
  join "," (encode_pair <$> (base :: merges)).

(** ** Sample data *)

(** A pull-request activity that completed at instant 0. *)
Definition pr_activity : PipelineActivity :=
  {| Name := "acme-app-pr-7-1"; Pipeline := "acme/app/PR-7"; Build := "1";
     CompletedTimestamp := Some 0 |}.

(** The same activity with a build field that is not a number. *)
Definition pr_activity_bad_build : PipelineActivity :=
  {| Name := "acme-app-pr-7-1"; Pipeline := "acme/app/PR-7"; Build := "one";
     CompletedTimestamp := Some 0 |}.

(** A pull-request activity of a pipeline that Jenkins does not list. *)
Definition pr_activity_no_job : PipelineActivity :=
  {| Name := "c-pr-3-1"; Pipeline := "c"; Build := "1";
     CompletedTimestamp := Some 0 |}.

(** Two merge pairs for the same change identifier. *)
Definition repeated_change : list (string * string) :=
  [("12", "bbb"); ("12", "ccc")]%string.

(** The merge pairs of the example of the design document. *)
Definition two_changes : list (string * string) :=
  [("12", "bbb"); ("34", "ccc")]%string.

(** The input and the expected value of [TestParsePullRefs]. *)
Definition test_pull_refs : string :=
  "master:ef08a6cd194c2687d4bc12df6bb8a86f53c348ba,2739:5b351f4eae3c4afbb90dd7787f8bf2f8c454723f,2822:bac2a1f34fd54811fb767f69543f59eb3949b2a5".

Definition test_expected : RefSet :=
  {| baseBranch := "master";
     baseSha := "ef08a6cd194c2687d4bc12df6bb8a86f53c348ba";
     toMerge :=
       <["2822"%string := "bac2a1f34fd54811fb767f69543f59eb3949b2a5"%string]>
         (<["2739"%string := "5b351f4eae3c4afbb90dd7787f8bf2f8c454723f"%string]>
            ∅) |}.

(** The job names Jenkins lists in the examples. *)
Definition jenkins_jobs : list string := ["a"; "b"]%string.

(** A second activity of pipeline [c]. *)
Definition c_activity_2 : PipelineActivity :=
  {| Name := "c-2"; Pipeline := "c"; Build := "2";
     CompletedTimestamp := None |}.

(** An activity of a pipeline [c]. *)
Definition c_activity : PipelineActivity :=
  {| Name := "c-1"; Pipeline := "c"; Build := "1";
     CompletedTimestamp := None |}.

(** An activity of a pipeline [d]. *)
Definition d_activity : PipelineActivity :=
  {| Name := "d-2"; Pipeline := "d"; Build := "2";
     CompletedTimestamp := None |}.

(** An activity of pipeline [d] whose build field is not a number. *)
Definition d_activity_bad_build : PipelineActivity :=
  {| Name := "d-x"; Pipeline := "d"; Build := "x";
     CompletedTimestamp := None |}.

(** Options whose pull-request window, in nanoseconds, no longer fits an
    [int64]. *)
Definition long_window : GCActivitiesOptions :=
  {| RevisionHistoryLimit := 5; PullRequestHours := 2562048 |}.

(** Build [n] of a pipeline, still running. *)
Definition numbered (pipeline : string) (n : Z) : PipelineActivity :=
  {| Name := (pipeline ++ "-" ++ pretty n)%string; Pipeline := pipeline;
     Build := pretty n; CompletedTimestamp := None |}.

(** Builds 1 to 7 of one pipeline. *)
Definition seven_builds : list PipelineActivity :=
  numbered "app" <$> [1; 2; 3; 4; 5; 6; 7].

(** Two activities of pipeline [c], which Jenkins does not list, and two of
    pipeline [a], which it lists. *)
Definition orphans_and_others : list PipelineActivity :=
  [c_activity; c_activity_2; numbered "a" 1; numbered "a" 2].

(** ** Vocabulary for the further properties *)

(** The activities of a snapshot past which the first loop goes without
    taking the age-expiry branch, the clock having been read [t] times
    before the first of them. *)
Fixpoint survivors (o : GCActivitiesOptions) (rt : Runtime) (t : nat)
    (items : list PipelineActivity) : list PipelineActivity :=
  match items with
  | [] => []
  | a :: rest =>
      if age_expired o (Now rt t) a
      then survivors o rt (t + readings a) rest
      else a :: survivors o rt (t + readings a) rest
  end.

(** The converted build fields of the activities of one pipeline, in the
    order of the list. *)
Definition builds_of (pipeline : string) (items : list PipelineActivity)
  : list (option Z) :=
  (fun a => Atoi (Build a)) <$> filter (fun a => Pipeline a = pipeline) items.

(** Every byte of a string passes a test. *)
Fixpoint all_bytes (P : ascii -> bool) (s : string) : bool :=
  match s with
  | EmptyString => true
  | String c s' => P c && all_bytes P s'
  end.

(** A byte that is neither [/], nor [_], nor an upper-case ASCII letter. *)
Definition name_byte (c : ascii) : bool :=
  negb (Ascii.eqb c "/") && negb (Ascii.eqb c "_") && negb (is_upper c).

(** The [Delete] calls the first loop decides on for a list of activities,
    in the order of the list, the clock having been read [t] times before. *)
Fixpoint decisions (o : GCActivitiesOptions) (rt : Runtime) (t : nat)
    (prowEnabled : bool) (jobNames : list string)
    (items : list PipelineActivity) : list Deletion :=
  match items with
  | [] => []
  | a :: rest =>
      visit_deletions o (Now rt t) prowEnabled jobNames a ++
      decisions o rt (t + readings a) prowEnabled jobNames rest
  end.

(** The number of clock readings the first loop takes over a list. *)
Definition readings_of (items : list PipelineActivity) : nat :=
  foldr (fun a n => (readings a + n)%nat) 0%nat items.

(** ** Basic facts *)

Lemma wrap_int_id (z : Z) : is_int z -> wrap_int z = z.
Proof.
  unfold is_int, int_min, int_max, wrap_int. intros Hz.
  rewrite Z.mod_small; lia.
Qed.

Lemma wrap_int_range (z : Z) : is_int (wrap_int z).
Proof.
  unfold is_int, int_min, int_max, wrap_int.
  pose proof (Z.mod_pos_bound (z + 2 ^ 63) (2 ^ 64) ltac:(lia)). lia.
Qed.

Lemma len_nonneg {A : Type} (l : list A) : 0 <= len l.
Proof. unfold len. lia. Qed.

Lemma issued_app {St : Type} (w w' : World St) (extra : list Deletion) :
  plan w' = plan w ++ extra -> issued w w' = extra.
Proof. unfold issued. intros ->. by rewrite drop_app_length. Qed.

Lemma length_sortInts builds : length (sortInts builds) = length builds.
Proof. unfold sortInts. by rewrite merge_sort_Permutation. Qed.

Section Facts.

Context {St : Type} `{!ActivityStore St}.
Variable o : GCActivitiesOptions.
Variable rt : Runtime.

Lemma expired_eq (a : PipelineActivity) (w : World St) :
  exists k : nat,
    expired o rt a w =
    (Done (age_expired o (Now rt (ticks w)) a),
     mkWorld (store w) (ticks w + k) (plan w)).
Proof.
  unfold expired, age_expired. destruct w as [s t p]; simpl.
  destruct (Contains (Name a) "-pr-"); simpl.
  - destruct (CompletedTimestamp a) as [c|]; simpl.
    + exists 1%nat. unfold bind, timeNow, ret; simpl.
      by rewrite Nat.add_1_r.
    + exists 0%nat. unfold ret. by rewrite Nat.add_0_r.
  - exists 0%nat. unfold ret. by rewrite Nat.add_0_r.
Qed.

(** A turn of the first loop issues exactly [visit_deletions], whatever the
    store answers. *)
Lemma visit_plan prowEnabled jobNames a m (w : World St) :
  plan (visit o rt prowEnabled jobNames a m w).2 =
  plan w ++ visit_deletions o (Now rt (ticks w)) prowEnabled jobNames a.
Proof.
  unfold visit, visit_deletions, orphan.
  destruct (expired_eq a w) as [k Hk].
  unfold bind at 1. rewrite Hk.
  destruct (age_expired o (Now rt (ticks w)) a).
  - unfold bind, deleteActivity, ret; simpl.
    by destruct (Delete (Name a) (store w)).
  - destruct prowEnabled; simpl.
    + unfold bind, ret, atoi; simpl.
      destruct (Atoi (Build a)); simpl; by rewrite app_nil_r.
    + destruct (matched a jobNames); simpl.
      * unfold bind, ret, atoi; simpl.
        destruct (Atoi (Build a)); simpl; by rewrite app_nil_r.
      * unfold bind, deleteActivity, ret, atoi, raise; simpl.
        destruct (Delete (Name a) (store w)); simpl; [|done].
        by destruct (Atoi (Build a)).
Qed.

Lemma expired_exact (a : PipelineActivity) (w : World St) :
  expired o rt a w =
  (Done (age_expired o (Now rt (ticks w)) a), after_check a w).
Proof.
  unfold expired, age_expired, after_check, readings.
  destruct w as [s t p]; simpl.
  destruct (Contains (Name a) "-pr-"); simpl.
  - destruct (CompletedTimestamp a) as [c|]; simpl.
    + unfold bind, timeNow, ret; simpl. by rewrite Nat.add_1_r.
    + unfold ret. by rewrite Nat.add_0_r.
  - unfold ret. by rewrite Nat.add_0_r.
Qed.

(** The two ways through the loop body. *)
Lemma visit_eq prowEnabled jobNames a m (w : World St) :
  visit o rt prowEnabled jobNames a m w =
  if age_expired o (Now rt (ticks w)) a then
    (deleteActivity (Name a) AgeExpired (ClientError (Name a)) ;;
     ret m) (after_check a w)
  else
    ((if orphan prowEnabled jobNames a
      then deleteActivity (Name a) Orphaned (ClientError (Name a))
      else ret tt) ;;
     buildNumber <- atoi (Build a) ;;
     ret (<[Pipeline a := default [] (m !! Pipeline a) ++ [buildNumber]]> m))
      (after_check a w).
Proof.
  unfold visit. unfold bind at 1. rewrite expired_exact.
  destruct (age_expired _ _ _); [done|].
  unfold orphan. by destruct prowEnabled, (matched a jobNames).
Qed.

(** The pull-request window in nanoseconds, when it fits an [int64]. *)
Lemma hours_exact (h : Z) : - 2562047 <= h <= 2562047 -> hours h = h * Hour.
Proof.
  intros Hh. unfold hours. apply wrap_int_id.
  unfold is_int, int_min, int_max, Hour. lia.
Qed.

Lemma age_expired_spec (now : Time) (a : PipelineActivity) :
  - 2562047 <= PullRequestHours o <= 2562047 ->
  Contains (Name a) "-pr-" = true ->
  age_expired o now a = true <-> spec_age_expired o now a.
Proof.
  intros Hh Hc. unfold age_expired, spec_age_expired, Before, Add.
  rewrite Hc, hours_exact by done. simpl.
  destruct (CompletedTimestamp a) as [t|].
  - rewrite Z.ltb_lt. split.
    + intros Hlt. by exists t.
    + by intros (t' & [= <-] & Hlt).
  - split; [done|]. by intros (t' & [=] & _).
Qed.

Lemma matched_elem_of (a : PipelineActivity) (jobNames : list string) :
  matched a jobNames = true <-> Pipeline a ∈ jobNames.
Proof.
  unfold matched. rewrite existsb_exists. split.
  - intros (j & Hin & Heq). apply String.eqb_eq in Heq. subst j.
    by apply list_elem_of_In.
  - intros Hin. exists (Pipeline a). split; [by apply list_elem_of_In|].
    apply String.eqb_refl.
Qed.

(** What a turn of the first loop issues, as issued entries. *)
Lemma visit_issued prowEnabled jobNames a m (w : World St) :
  issued w (visit o rt prowEnabled jobNames a m w).2 =
  visit_deletions o (Now rt (ticks w)) prowEnabled jobNames a.
Proof. apply issued_app, visit_plan. Qed.

(** *** The revision cap loop *)

(** The loop condition keeps the index inside the slice as long as the
    limit is not negative. *)
Lemma index_in_bounds (builds : list Z) (i : Z) :
  0 <= RevisionHistoryLimit o <= int_max ->
  0 <= i ->
  i < wrap_int (len builds - RevisionHistoryLimit o) ->
  (Z.to_nat i < length builds)%nat.
Proof.
  intros Hl Hi Hlt.
  destruct (decide (len builds <= int_max)) as [Hle|Hgt].
  - rewrite wrap_int_id in Hlt.
    + unfold len in *. lia.
    + pose proof (len_nonneg builds). unfold is_int, int_min, int_max in *. lia.
  - pose proof (wrap_int_range (len builds - RevisionHistoryLimit o)) as Hr.
    unfold is_int, len in *. lia.
Qed.

Lemma capLoop_S pipeline builds fuel i :
  capLoop (St := St) o rt pipeline builds (S fuel) i =
  if i <? wrap_int (len builds - RevisionHistoryLimit o) then
    match builds !! Z.to_nat i with
    | None => panic
    | Some b =>
        deleteActivity (activityName rt pipeline b) OverLimit
          (FailedToDelete (activityName rt pipeline b)) ;;
        capLoop o rt pipeline builds fuel (i + 1)
    end
  else ret tt.
Proof. reflexivity. Qed.

(** With a limit that is not negative the loop never reads out of range. *)
Lemma capLoop_no_panic pipeline builds fuel i (w : World St) :
  0 <= RevisionHistoryLimit o <= int_max ->
  0 <= i ->
  (capLoop o rt pipeline builds fuel i w).1 <> Panic.
Proof.
  intros Hl. revert i w.
  induction fuel as [|fuel IH]; intros i w Hi; simpl; [done|].
  destruct (i <? wrap_int (len builds - RevisionHistoryLimit o)) eqn:Hc; [|done].
  apply Z.ltb_lt in Hc.
  destruct (lookup_lt_is_Some_2 builds (Z.to_nat i)
              (index_in_bounds builds i Hl Hi Hc)) as [b ->].
  unfold bind, deleteActivity.
  destruct (Delete _ (store w)); simpl; [|done].
  apply IH. lia.
Qed.

(** [length builds + 1] turns are enough: more fuel changes nothing. *)
Lemma capLoop_fuel pipeline builds fuel i (w : World St) :
  0 <= i <= len builds ->
  len builds + 1 <= Z.of_nat fuel + i ->
  capLoop o rt pipeline builds (S fuel) i w =
  capLoop o rt pipeline builds fuel i w.
Proof.
  revert i w. induction fuel as [|fuel IH]; intros i w Hi Hf.
  - unfold len in *. lia.
  - rewrite (capLoop_S pipeline builds (S fuel) i).
    rewrite (capLoop_S pipeline builds fuel i).
    destruct (i <? _); [|done].
    destruct (builds !! Z.to_nat i) as [b|] eqn:Hb; [|done].
    apply lookup_lt_Some in Hb.
    unfold bind. destruct (deleteActivity _ _ _ w) as [[[]| |] w']; try done.
    apply IH; unfold len in *; lia.
Qed.

(** Whatever the amount of fuel above [length builds], the loop started at
    index 0 behaves as [capGroup] runs it. *)
Lemma capLoop_enough pipeline builds (extra : nat) (w : World St) :
  capLoop o rt pipeline builds (S (length builds) + extra) 0 w =
  capLoop o rt pipeline builds (S (length builds)) 0 w.
Proof.
  induction extra as [|extra IH].
  - by rewrite Nat.add_0_r.
  - rewrite Nat.add_succ_r, capLoop_fuel; [exact IH| |].
    + pose proof (len_nonneg builds). lia.
    + unfold len. lia.
Qed.

End Facts.

(** *** Names *)

Lemma lower_byte_separator (x c : ascii) :
  c = "/"%char \/ c = "_"%char ->
  lower_byte (if Ascii.eqb x c then "-"%char else x) =
  (if Ascii.eqb (lower_byte x) c then "-"%char else lower_byte x).
Proof.
  intros [->| ->];
    destruct x as [[] [] [] [] [] [] [] []]; vm_compute; reflexivity.
Qed.

Lemma is_ascii_byte_separator (x c : ascii) :
  c = "/"%char \/ c = "_"%char ->
  is_ascii_byte (if Ascii.eqb x c then "-"%char else x) = is_ascii_byte x.
Proof.
  intros [->| ->];
    destruct x as [[] [] [] [] [] [] [] []]; vm_compute; reflexivity.
Qed.

Lemma lower_ascii_Replace (s : string) (c : ascii) :
  c = "/"%char \/ c = "_"%char ->
  lower_ascii (Replace s c "-") = Replace (lower_ascii s) c "-".
Proof.
  intros Hc. induction s as [|x s IH]; simpl; [done|].
  by rewrite IH, lower_byte_separator.
Qed.

Lemma isASCII_Replace (s : string) (c : ascii) :
  c = "/"%char \/ c = "_"%char ->
  isASCII (Replace s c "-") = isASCII s.
Proof.
  intros Hc. induction s as [|x s IH]; simpl; [done|].
  by rewrite IH, is_ascii_byte_separator.
Qed.

Lemma Replace_dash_separators (s : string) :
  Replace (Replace s "/" "-") "_" "-" = dash_separators s.
Proof.
  induction s as [|c s IH]; simpl; [done|].
  rewrite IH. f_equal.
  destruct (Ascii.eqb c "/") eqn:Hc; simpl; [done|].
  by destruct (Ascii.eqb c "_").
Qed.

Lemma activityName_spec (rt : Runtime) (pipeline : string) (build : Z) :
  activityName rt pipeline build = spec_target_name rt pipeline build.
Proof.
  unfold activityName, spec_target_name, Sprintf_s_v.
  by rewrite Replace_dash_separators.
Qed.

Lemma ToLower_Replace (f : string -> string) (s : string) (c : ascii) :
  keeps_separators f ->
  c = "/"%char \/ c = "_"%char ->
  ToLower f (Replace s c "-") = Replace (ToLower f s) c "-".
Proof.
  intros Hf Hc. unfold ToLower. rewrite isASCII_Replace by done.
  destruct (isASCII s); [by apply lower_ascii_Replace|by apply Hf].
Qed.

(** *** What the two loops can issue, against any store *)

Section Plans.

Context {St : Type} `{!ActivityStore St}.
Variable o : GCActivitiesOptions.
Variable rt : Runtime.

Lemma visit_no_panic prowEnabled jobNames a m (w : World St) :
  (visit o rt prowEnabled jobNames a m w).1 <> Panic.
Proof.
  unfold visit. destruct (expired_eq o rt a w) as [k Hk].
  unfold bind at 1. rewrite Hk.
  destruct (age_expired _ _ _).
  - unfold bind, deleteActivity, ret; simpl.
    by destruct (Delete _ _).
  - unfold bind, deleteActivity, ret, atoi, raise; simpl.
    destruct (negb prowEnabled); [destruct (negb _)|]; simpl;
      repeat (case_match; simpl; try done).
Qed.


(** The first loop issues only age-expiry and orphan deletions, under the
    names of the activities it walks over, and orphan deletions only when
    prow is not enabled and the pipeline is not a job. *)
Lemma scan_plan prowEnabled jobNames items m (w : World St) :
  exists extra,
    plan (scan o rt prowEnabled jobNames items m w).2 = plan w ++ extra /\
    Forall (first_pass prowEnabled jobNames items) extra.
Proof.
  revert m w. induction items as [|a items IH]; intros m w; simpl.
  - exists []. by rewrite app_nil_r.
  - unfold bind.
    pose proof (visit_plan o rt prowEnabled jobNames a m w) as Hv.
    assert (Hd : Forall (first_pass prowEnabled jobNames (a :: items))
              (visit_deletions o (Now rt (ticks w)) prowEnabled jobNames a)).
    { unfold visit_deletions, orphan.
      destruct (age_expired _ _ _).
      { apply Forall_cons; split; [|apply Forall_nil_2].
        exists a. split; [apply list_elem_of_here|]. split; [done|by left]. }
      destruct prowEnabled; simpl; [apply Forall_nil_2|].
      destruct (matched a jobNames) eqn:Hm; simpl; [apply Forall_nil_2|].
      apply Forall_cons; split; [|apply Forall_nil_2].
      exists a. split; [apply list_elem_of_here|]. split; [done|right].
      split; [done|]. split; [done|].
      intros Hin. apply matched_elem_of in Hin. congruence. }
    destruct (visit _ _ _ _ _ _ _) as [[m'| |] w']; simpl in *;
      try (eexists; split; [exact Hv|exact Hd]).
    destruct (IH m' w') as (extra & He & Hf).
    exists (visit_deletions o (Now rt (ticks w)) prowEnabled jobNames a ++ extra).
    split.
    + by rewrite He, Hv, app_assoc.
    + apply Forall_app. split; [done|].
      eapply Forall_impl; [exact Hf|].
      intros d (a' & Hin & Hd'). exists a'. split; [|done].
      by apply list_elem_of_further.
Qed.

(** The inner loop issues only over-limit deletions, named after a build of
    the group. *)
Lemma capLoop_plan pipeline builds fuel i (w : World St) :
  exists extra,
    plan (capLoop o rt pipeline builds fuel i w).2 = plan w ++ extra /\
    Forall (fun d : Deletion =>
              exists b, b ∈ builds /\ d = (activityName rt pipeline b, OverLimit))
           extra.
Proof.
  revert i w. induction fuel as [|fuel IH]; intros i w.
  - exists []. simpl. by rewrite app_nil_r.
  - rewrite capLoop_S.
    destruct (i <? _); [|exists []; simpl; by rewrite app_nil_r].
    destruct (builds !! Z.to_nat i) as [b|] eqn:Hb;
      [|exists []; simpl; by rewrite app_nil_r].
    assert (Hin : b ∈ builds) by (eapply list_elem_of_lookup_2; exact Hb).
    unfold bind, deleteActivity.
    destruct (Delete _ (store w)) as [s'|]; simpl.
    + destruct (IH (i + 1) (mkWorld s' (ticks w)
                  (plan w ++ [(activityName rt pipeline b, OverLimit)])))
        as (extra & He & Hf).
      exists ((activityName rt pipeline b, OverLimit) :: extra). split.
      * rewrite He. simpl. by rewrite <- app_assoc.
      * apply Forall_cons; split; [by exists b|done].
    + exists [(activityName rt pipeline b, OverLimit)]. split; [done|].
      apply Forall_cons; split; [by exists b|apply Forall_nil_2].
Qed.

Lemma capAll_plan groups (w : World St) :
  exists extra,
    plan (capAll o rt groups w).2 = plan w ++ extra /\
    Forall (fun d : Deletion => d.2 = OverLimit) extra.
Proof.
  revert w. induction groups as [|[pipeline builds] groups IH]; intros w; simpl.
  - exists []. by rewrite app_nil_r.
  - unfold bind, capGroup.
    destruct (capLoop_plan pipeline (sortInts builds)
                (S (length (sortInts builds))) 0 w)
      as (e1 & He1 & Hf1).
    assert (Hf1' : Forall (fun d : Deletion => d.2 = OverLimit) e1).
    { eapply Forall_impl; [exact Hf1|]. by intros d (b & _ & ->). }
    destruct (capLoop _ _ _ _ _ _ w) as [[[]| |] w']; simpl in *;
      try (exists e1; by split).
    destruct (IH w') as (e2 & He2 & Hf2).
    exists (e1 ++ e2). split.
    + by rewrite He2, He1, app_assoc.
    + by apply Forall_app.
Qed.

(** How the inner loop ends when the limit is not negative: either it runs
    to its end and has issued one deletion per build below the bound, in
    order, or a [Delete] call failed and it has issued the deletions up to
    and including that one. *)
Lemma capLoop_run pipeline builds fuel i (w : World St) :
  0 <= RevisionHistoryLimit o <= int_max ->
  0 <= i ->
  wrap_int (len builds - RevisionHistoryLimit o) - i <= Z.of_nat fuel ->
  let expected :=
    (fun b => (activityName rt pipeline b, OverLimit)) <$>
    take (Z.to_nat (wrap_int (len builds - RevisionHistoryLimit o) - i))
         (drop (Z.to_nat i) builds) in
  let r := capLoop o rt pipeline builds fuel i w in
  (r.1 = Done tt /\ plan r.2 = plan w ++ expected) \/
  (exists (k : nat) (name : string),
      r.1 = Fail (FailedToDelete name) /\
      expected !! k = Some (name, OverLimit) /\
      plan r.2 = plan w ++ take (S k) expected).
Proof.
  intros Hl. revert i w. induction fuel as [|fuel IH]; intros i w Hi Hf; cbv zeta.
  - left. simpl. replace (Z.to_nat _) with 0%nat by lia.
    by rewrite take_0, fmap_nil, app_nil_r.
  - rewrite capLoop_S.
    destruct (i <? _) eqn:Hc.
    + apply Z.ltb_lt in Hc.
      pose proof (index_in_bounds o builds i Hl Hi Hc) as Hb.
      destruct (lookup_lt_is_Some_2 builds (Z.to_nat i) Hb) as [b Hlk].
      rewrite Hlk, (drop_S _ _ _ Hlk).
      replace (Z.to_nat (wrap_int (len builds - RevisionHistoryLimit o) - i))
        with (S
                (Z.to_nat (wrap_int (len builds - RevisionHistoryLimit o) - (i + 1))))
        by lia.
      replace (S (Z.to_nat i)) with (Z.to_nat (i + 1)) by lia.
      rewrite firstn_cons, fmap_cons.
      unfold bind, deleteActivity.
      destruct (Delete _ (store w)) as [s'|].
      * destruct (IH (i + 1)
                    (mkWorld s' (ticks w)
                       (plan w ++ [(activityName rt pipeline b, OverLimit)]))
                    ltac:(lia) ltac:(lia))
          as [[Hd Hp]|(k & name & Hfail & Hk & Hp)].
        -- left. split; [exact Hd|]. rewrite Hp. simpl.
           by rewrite <- app_assoc.
        -- right. exists (S k), name. split; [exact Hfail|].
           split; [exact Hk|]. rewrite Hp. simpl. by rewrite <- app_assoc.
      * right. exists 0%nat, (activityName rt pipeline b).
        split; [done|]. split; [done|]. simpl. by rewrite take_0.
    + apply Z.ltb_ge in Hc. left. unfold ret. simpl.
      replace (Z.to_nat _) with 0%nat by lia.
      by rewrite take_0, fmap_nil, app_nil_r.
Qed.

Lemma capGroup_run pipeline builds (w : World St) :
  0 <= RevisionHistoryLimit o <= int_max ->
  let expected := over_limit o rt pipeline builds in
  let r := capGroup o rt pipeline builds w in
  (r.1 = Done tt /\ plan r.2 = plan w ++ expected) \/
  (exists (k : nat) (name : string),
      r.1 = Fail (FailedToDelete name) /\
      expected !! k = Some (name, OverLimit) /\
      plan r.2 = plan w ++ take (S k) expected).
Proof.
  intros Hl. cbv zeta. unfold capGroup, over_limit.
  pose proof (wrap_int_range (len (sortInts builds) - RevisionHistoryLimit o)) as Hr.
  pose proof (len_nonneg (sortInts builds)) as Hn.
  assert (Hw : wrap_int (len (sortInts builds) - RevisionHistoryLimit o)
               <= len (sortInts builds)).
  { destruct (decide (len (sortInts builds) <= int_max)).
    - rewrite wrap_int_id; [lia|]. unfold is_int, int_min, int_max in *. lia.
    - unfold is_int in Hr. lia. }
  pose proof (capLoop_run pipeline (sortInts builds)
                (S (length (sortInts builds))) 0 w Hl ltac:(lia)) as H.
  cbv zeta in H. rewrite Z.sub_0_r in H. simpl drop in H.
  unfold len in *. rewrite length_sortInts in *.
  apply H. lia.
Qed.

(** When the loop over the map runs to its end, it has issued the over-limit
    deletions of every group, group after group. *)
Lemma capAll_done groups (w w' : World St) :
  0 <= RevisionHistoryLimit o <= int_max ->
  capAll o rt groups w = (Done tt, w') ->
  plan w' = plan w ++ (groups ≫= fun g => over_limit o rt g.1 g.2).
Proof.
  intros Hl. revert w.
  induction groups as [|[pipeline builds] groups IH]; intros w; simpl.
  - intros [= <-]. by rewrite app_nil_r.
  - unfold bind.
    destruct (capGroup_run pipeline builds w Hl)
      as [[Hd Hp]|(k & name & Hfail & _ & _)].
    + destruct (capGroup _ _ _ _ w) as [[[]| |] w1]; simpl in *; try done.
      intros Hrest. rewrite (IH _ Hrest), Hp. by rewrite app_assoc.
    + destruct (capGroup _ _ _ _ w) as [[[]| |] w1]; simpl in *; done.
Qed.

Lemma capAll_no_panic groups (w : World St) :
  0 <= RevisionHistoryLimit o <= int_max ->
  (capAll o rt groups w).1 <> Panic.
Proof.
  intros Hl. revert w.
  induction groups as [|[pipeline builds] groups IH]; intros w; simpl; [done|].
  unfold bind, capGroup.
  pose proof (capLoop_no_panic o rt pipeline (sortInts builds)
                (S (length (sortInts builds))) 0 w Hl ltac:(lia)) as Hc.
  destruct (capLoop _ _ _ _ _ _ w) as [[[]| |] w']; simpl in *;
    [apply IH|done|done].
Qed.

End Plans.

(** *** Runs against the store that accepts every call *)

Section AcceptAll.

Variable o : GCActivitiesOptions.
Variable rt : Runtime.
Hypothesis limit_ok : 0 <= RevisionHistoryLimit o <= int_max.

Lemma capLoop_accept pipeline builds fuel i (w : World unit) :
  0 <= i ->
  wrap_int (len builds - RevisionHistoryLimit o) - i <= Z.of_nat fuel ->
  capLoop o rt pipeline builds fuel i w =
  (Done tt,
   mkWorld tt (ticks w)
     (plan w ++
      ((fun b => (activityName rt pipeline b, OverLimit)) <$>
       take (Z.to_nat (wrap_int (len builds - RevisionHistoryLimit o) - i))
            (drop (Z.to_nat i) builds)))).
Proof.
  revert i w. induction fuel as [|fuel IH]; intros i [[] t p] Hi Hf.
  - simpl. replace (Z.to_nat _) with 0%nat by lia.
    by rewrite take_0, fmap_nil, app_nil_r.
  - rewrite capLoop_S.
    destruct (i <? _) eqn:Hc.
    + apply Z.ltb_lt in Hc.
      pose proof (index_in_bounds o builds i limit_ok Hi Hc) as Hb.
      destruct (lookup_lt_is_Some_2 builds (Z.to_nat i) Hb) as [b Hlk].
      rewrite Hlk. unfold bind, deleteActivity; simpl.
      rewrite IH by lia. simpl. do 2 f_equal.
      rewrite <- app_assoc. f_equal.
      rewrite (drop_S _ _ _ Hlk).
      replace (Z.to_nat (wrap_int (len builds - RevisionHistoryLimit o) - i))
        with (S (Z.to_nat (wrap_int (len builds - RevisionHistoryLimit o) - (i + 1))))
        by lia.
      replace (Z.to_nat (i + 1)) with (S (Z.to_nat i)) by lia.
      done.
    + apply Z.ltb_ge in Hc. unfold ret.
      replace (Z.to_nat _) with 0%nat by lia.
      by rewrite take_0, fmap_nil, app_nil_r.
Qed.

Lemma capGroup_accept pipeline builds (w : World unit) :
  capGroup o rt pipeline builds w =
  (Done tt, mkWorld tt (ticks w) (plan w ++ over_limit o rt pipeline builds)).
Proof.
  unfold capGroup, over_limit.
  pose proof (wrap_int_range (len (sortInts builds) - RevisionHistoryLimit o)) as Hr.
  pose proof (len_nonneg (sortInts builds)) as Hn.
  assert (Hw : wrap_int (len (sortInts builds) - RevisionHistoryLimit o)
               <= len (sortInts builds)).
  { destruct (decide (len (sortInts builds) <= int_max)).
    - rewrite wrap_int_id; [lia|]. unfold is_int, int_min, int_max in *. lia.
    - unfold is_int in Hr. lia. }
  rewrite capLoop_accept; [|lia|unfold len in *; lia].
  rewrite Z.sub_0_r. simpl. rewrite drop_0.
  unfold len. by rewrite length_sortInts.
Qed.

Lemma capAll_accept groups (w : World unit) :
  capAll o rt groups w =
  (Done tt,
   mkWorld tt (ticks w)
     (plan w ++ (groups ≫= fun g => over_limit o rt g.1 g.2))).
Proof.
  revert w. induction groups as [|[pipeline builds] groups IH]; intros [[] t p].
  - simpl. unfold ret. by rewrite app_nil_r.
  - simpl. unfold bind at 1. rewrite capGroup_accept. rewrite IH. simpl.
    by rewrite app_assoc.
Qed.

End AcceptAll.



(** A run issues the deletions of the first loop, then over-limit
    deletions. *)
Lemma Run_plan {St : Type} `{!ActivityStore St} o rt items prowEnabled jobs
    (w : World St) :
  exists first capped,
    plan (Run o rt items prowEnabled jobs w).2 = plan w ++ first ++ capped /\
    Forall (first_pass prowEnabled (if prowEnabled then [] else jobs) items)
      first /\
    Forall (fun d : Deletion => d.2 = OverLimit) capped.
Proof.
  unfold Run. destruct items as [|a items].
  { exists [], []. simpl. by rewrite app_nil_r. }
  unfold bind.
  destruct (scan_plan o rt prowEnabled (if prowEnabled then [] else jobs)
              (a :: items) ∅ w) as (first & He & Hf).
  destruct (scan _ _ _ _ _ _ _) as [[m| |] w']; simpl in *;
    try (exists first, []; rewrite app_nil_r; by split).
  destruct (capAll_plan o rt (RangeOrder rt m) w') as (capped & Hc & Hfc).
  exists first, capped. split; [|done].
  by rewrite Hc, He, app_assoc.
Qed.

(** *** A run that stops in the first loop *)

Section Stops.

Context {St : Type} `{!ActivityStore St}.
Variable o : GCActivitiesOptions.
Variable rt : Runtime.

Lemma scan_app prowEnabled jobNames pre post m (w : World St) :
  scan o rt prowEnabled jobNames (pre ++ post) m w =
  (m' <- scan o rt prowEnabled jobNames pre m ;;
   scan o rt prowEnabled jobNames post m') w.
Proof.
  revert m w. induction pre as [|a pre IH]; intros m w; simpl; [done|].
  unfold bind.
  destruct (visit _ _ _ _ _ _ _) as [[m'| |] w']; [|done|done].
  rewrite IH. done.
Qed.

(** The run up to and including the activity [a] that follows [pre]. *)
Lemma Run_reaches prowEnabled jobs pre a post m1 (w w1 : World St) :
  scan o rt prowEnabled (if prowEnabled then [] else jobs) pre ∅ w
    = (Done m1, w1) ->
  Run o rt (pre ++ a :: post) prowEnabled jobs w =
  (m2 <- visit o rt prowEnabled (if prowEnabled then [] else jobs) a m1 ;;
   m3 <- scan o rt prowEnabled (if prowEnabled then [] else jobs) post m2 ;;
   capAll o rt (RangeOrder rt m3)) w1.
Proof.
  intros Hpre. unfold Run.
  destruct (pre ++ a :: post) as [|x l] eqn:Hl.
  { by destruct pre. }
  rewrite <- Hl. unfold bind at 1. rewrite scan_app.
  unfold bind at 1. rewrite Hpre. simpl.
  unfold bind.
  destruct (visit _ _ _ _ _ _ _) as [[m2| |] w2]; [|done|done].
  by destruct (scan _ _ _ _ _ _ _) as [[m3| |] w3].
Qed.

(** The turn of an activity that is not age-expired and whose build field is
    not a number. *)
Lemma visit_unparsable prowEnabled jobNames a m (w : World St) :
  age_expired o (Now rt (ticks w)) a = false ->
  Atoi (Build a) = None ->
  visit o rt prowEnabled jobNames a m w =
  if orphan prowEnabled jobNames a then
    match Delete (Name a) (store w) with
    | Some s' =>
        (Fail (NumError (Build a)),
         mkWorld s' (ticks w + readings a) (plan w ++ [(Name a, Orphaned)]))
    | None =>
        (Fail (ClientError (Name a)),
         mkWorld (store w) (ticks w + readings a)
           (plan w ++ [(Name a, Orphaned)]))
    end
  else (Fail (NumError (Build a)), after_check a w).
Proof.
  intros Hage Hbuild. rewrite visit_eq, Hage.
  unfold bind, deleteActivity, atoi, raise, ret, after_check. rewrite Hbuild.
  destruct (orphan _ _ _); simpl; [|done].
  by destruct (Delete _ _).
Qed.

(** The turn of an age-expired activity whose deletion succeeds: the build
    field is not looked at. *)
Lemma visit_expired prowEnabled jobNames a m (w : World St) (s' : St) :
  age_expired o (Now rt (ticks w)) a = true ->
  Delete (Name a) (store w) = Some s' ->
  visit o rt prowEnabled jobNames a m w =
  (Done m,
   mkWorld s' (ticks w + readings a) (plan w ++ [(Name a, AgeExpired)])).
Proof.
  intros Hage Hdel. rewrite visit_eq, Hage.
  unfold bind, deleteActivity, ret, after_check. simpl. by rewrite Hdel.
Qed.

(** The turn of an orphan that is not age-expired, whose deletion succeeds
    and whose build field is a number: the activity is deleted, and its build
    number is collected all the same. *)
Lemma visit_orphan jobNames a m (w : World St) (s' : St) (n : Z) :
  age_expired o (Now rt (ticks w)) a = false ->
  matched a jobNames = false ->
  Delete (Name a) (store w) = Some s' ->
  Atoi (Build a) = Some n ->
  visit o rt false jobNames a m w =
  (Done (<[Pipeline a := default [] (m !! Pipeline a) ++ [n]]> m),
   mkWorld s' (ticks w + readings a) (plan w ++ [(Name a, Orphaned)])).
Proof.
  intros Hage Hm Hdel Hbuild. rewrite visit_eq, Hage.
  unfold orphan. rewrite Hm. simpl.
  unfold bind, deleteActivity, atoi, ret, after_check. simpl.
  by rewrite Hdel, Hbuild.
Qed.

End Stops.

(** *** Two runtimes *)

(** The first loop looks at the runtime for the clock only. *)
Lemma scan_same_clock {St : Type} `{!ActivityStore St} o rt1 rt2 prowEnabled
    jobNames items m (w : World St) :
  Now rt1 = Now rt2 ->
  scan o rt1 prowEnabled jobNames items m w =
  scan o rt2 prowEnabled jobNames items m w.
Proof.
  intros Hnow. revert m w.
  induction items as [|a items IH]; intros m w; simpl; [done|].
  unfold bind. rewrite !visit_eq, Hnow.
  destruct (age_expired _ _ _).
  - destruct ((_ ;; _) (after_check a w)) as [[m'| |] w']; [apply IH|done|done].
  - destruct ((_ ;; _) (after_check a w)) as [[m'| |] w']; [apply IH|done|done].
Qed.

(** The names look at the runtime for the Unicode tables only. *)
Lemma over_limit_same_tables o rt1 rt2 pipeline builds :
  UnicodeLower rt1 = UnicodeLower rt2 ->
  over_limit o rt1 pipeline builds = over_limit o rt2 pipeline builds.
Proof.
  intros Hu. unfold over_limit, activityName. by rewrite Hu.
Qed.

(** Every deletion of the revision cap is an over-limit deletion. *)
Lemma over_limit_reason o rt (groups : list (string * list Z)) :
  filter (fun d : Deletion => d.2 <> OverLimit)
    (groups ≫= fun g => over_limit o rt g.1 g.2) = [].
Proof.
  induction groups as [|[pipeline builds] groups IH]; [done|].
  rewrite bind_cons, filter_app, IH, app_nil_r. unfold over_limit.
  induction (take _ _) as [|b l IHl]; [done|].
  rewrite fmap_cons, filter_cons_False; [done|]. simpl. by intros [].
Qed.

(** *** The pull-refs encoding *)

Lemma plain_comma_free (s : string) : plain s = true -> comma_free s = true.
Proof.
  induction s as [|c s IH]; simpl; [done|].
  intros [[_ Hc]%andb_prop Hs]%andb_prop.
  rewrite Hc. by apply IH.
Qed.

Lemma comma_free_pair (kv : string * string) :
  plain kv.1 = true -> plain kv.2 = true ->
  comma_free (encode_pair kv) = true.
Proof.
  destruct kv as [k v]. unfold encode_pair. simpl. intros Hk Hv.
  induction k as [|c k IH]; simpl in *.
  - by apply plain_comma_free.
  - apply andb_prop in Hk as [[_ Hc]%andb_prop Hk].
    rewrite Hc. by apply IH.
Qed.

Lemma cut_pair (kv : string * string) :
  plain kv.1 = true -> cut ":" (encode_pair kv) = Some kv.
Proof.
  destruct kv as [k v]. unfold encode_pair. simpl.
  induction k as [|c k IH]; simpl; [done|].
  intros [[Hc _]%andb_prop Hk]%andb_prop.
  apply negb_true_iff in Hc. rewrite Hc, (IH Hk). done.
Qed.

Lemma split_on_comma_free (s : string) :
  comma_free s = true -> split_on "," s = [s].
Proof.
  induction s as [|c s IH]; simpl; [done|].
  intros [Hc Hs]%andb_prop. apply negb_true_iff in Hc.
  by rewrite Hc, (IH Hs).
Qed.

Lemma split_on_append (s rest : string) :
  comma_free s = true ->
  split_on "," (s ++ String "," rest) = s :: split_on "," rest.
Proof.
  induction s as [|c s IH]; simpl; [done|].
  intros [Hc Hs]%andb_prop. apply negb_true_iff in Hc.
  by rewrite Hc, (IH Hs).
Qed.

Lemma split_join (x : string) (l : list string) :
  Forall (fun s => comma_free s = true) (x :: l) ->
  split_on "," (join "," (x :: l)) = x :: l.
Proof.
  revert x. induction l as [|y l IH]; intros x Hall.
  - simpl. apply split_on_comma_free. by inversion Hall.
  - change (join "," (x :: y :: l))
      with (x ++ String "," (join "," (y :: l)))%string.
    inversion Hall as [|? ? Hx Hrest]; subst.
    by rewrite split_on_append, IH.
Qed.

Lemma cut_pairs (l : list (string * string)) :
  Forall (fun kv => plain kv.1 = true) l ->
  mapM (cut ":") (encode_pair <$> l) = Some l.
Proof.
  induction l as [|kv l IH]; intros Hall; [done|].
  inversion Hall as [|? ? Hkv Hrest]; subst.
  rewrite fmap_cons. simpl. rewrite (cut_pair kv Hkv). simpl.
  by rewrite (IH Hrest).
Qed.

Lemma encodeRefSet_nonempty base merges :
  encodeRefSet base merges <> EmptyString.
Proof.
  unfold encodeRefSet. rewrite fmap_cons.
  destruct base as [k v]. unfold encode_pair at 1. simpl.
  destruct (encode_pair <$> merges); by destruct k.
Qed.

(** Pairs with distinct keys all end up in the mapping. *)
Lemma merge_map_snoc (l : list (string * string)) (kv : string * string) :
  merge_map (l ++ [kv]) = <[kv.1 := kv.2]> (merge_map l).
Proof. unfold merge_map. by rewrite foldl_app. Qed.

Lemma merge_map_lookup (l : list (string * string)) (k v : string) :
  NoDup l.*1 ->
  merge_map l !! k = Some v <-> (k, v) ∈ l.
Proof.
  induction l as [|[k' v'] l IH] using rev_ind; intros Hnd.
  - unfold merge_map. simpl. rewrite lookup_empty. split; [done|].
    by intros ?%elem_of_nil.
  - rewrite fmap_app in Hnd. apply NoDup_app in Hnd as (Hl & Hfresh & _).
    rewrite merge_map_snoc, elem_of_app, list_elem_of_singleton. simpl.
    destruct (decide (k' = k)) as [->|Hne].
    + rewrite lookup_insert_eq. split.
      * intros [= ->]. by right.
      * intros [Hin|[= ->]]; [|done].
        exfalso. apply (Hfresh k).
        -- apply list_elem_of_fmap. by exists (k, v).
        -- simpl. apply list_elem_of_here.
    + rewrite lookup_insert_ne by done. rewrite (IH Hl). split.
      * by left.
      * intros [Hin|[= -> ->]]; [done|congruence].
Qed.

Lemma merge_map_size (l : list (string * string)) :
  NoDup l.*1 -> size (merge_map l) = length l.
Proof.
  induction l as [|[k' v'] l IH] using rev_ind; intros Hnd; [done|].
  rewrite fmap_app in Hnd. apply NoDup_app in Hnd as (Hl & Hfresh & _).
  rewrite merge_map_snoc, length_app. simpl.
  rewrite map_size_insert_None.
  - rewrite (IH Hl). lia.
  - destruct (merge_map l !! k') as [v|] eqn:Hlk; [|done].
    apply (merge_map_lookup l k' v Hl) in Hlk.
    exfalso. apply (Hfresh k').
    + apply list_elem_of_fmap. by exists (k', v).
    + simpl. apply list_elem_of_here.
Qed.

(** Parsing an encoding gives back the pairs in their order. *)
Lemma parse_encode (base : string * string) (merges : list (string * string)) :
  Forall (fun kv => plain kv.1 = true /\ plain kv.2 = true) (base :: merges) ->
  parseRefSet (encodeRefSet base merges) =
  Some {| baseBranch := base.1; baseSha := base.2;
          toMerge := merge_map merges |}.
Proof.
  intros Hall. unfold parseRefSet.
  destruct (decide _) as [He|_]; [by apply encodeRefSet_nonempty in He|].
  unfold encodeRefSet. rewrite fmap_cons, split_join.
  - rewrite <- fmap_cons, cut_pairs.
    + by destruct base.
    + eapply Forall_impl; [exact Hall|]. by intros kv [Hk _].
  - rewrite <- fmap_cons. apply Forall_fmap.
    eapply Forall_impl; [exact Hall|].
    intros kv [Hk Hv]. by apply comma_free_pair.
Qed.

(** * The properties of the design document *)

(** C4. On a pipeline none of whose activities is orphaned a run caps the
    builds as the document says: of the builds 1 to 7 of one pipeline it
    deletes builds 1 and 2 under a limit of 5 and nothing under a limit of
    10. The groups that the loop over the map caps are, however, those the
    first loop has collected, and that loop, which has no [continue] after
    the orphan deletion, also collects the builds of the activities it has
    just deleted as orphaned. With the job names [a] and [b] and a limit of
    1, both activities of pipeline [c] are deleted as orphaned, so that no
    record of [c] survives; the run still forms the group [1; 2] for [c] and
    marks [c-1] over the limit. On a cluster that holds the four records
    this second deletion of [c-1] fails, and the run ends before build 1 of
    pipeline [a], which the cap should remove, is deleted. *)
Theorem revision_cap_counts_deleted_orphans :
  scan (keep 1) (steady 0) false jenkins_jobs orphans_and_others ∅ (start tt) =
    (Done {[ "a"%string := [1; 2]; "c"%string := [1; 2] ]},
     mkWorld tt 0 [("c-1"%string, Orphaned); ("c-2"%string, Orphaned)]) /\
  Run (keep 1) (steady 0) orphans_and_others false jenkins_jobs (start tt) =
    (Done tt,
     mkWorld tt 0 [("c-1"%string, Orphaned); ("c-2"%string, Orphaned);
                   ("c-1"%string, OverLimit); ("a-1"%string, OverLimit)]) /\
  Run (keep 1) (steady 0) orphans_and_others false jenkins_jobs
      (start ["c-1"; "c-2"; "a-1"; "a-2"]%string) =
    (Fail (FailedToDelete "c-1"),
     mkWorld ["a-1"; "a-2"]%string 0
       [("c-1"%string, Orphaned); ("c-2"%string, Orphaned);
        ("c-1"%string, OverLimit)]) /\
  Run (keep 5) (steady 0) seven_builds true [] (start tt) =
    (Done tt,
     mkWorld tt 0 [("app-1"%string, OverLimit); ("app-2"%string, OverLimit)]) /\
  Run (keep 10) (steady 0) seven_builds true [] (start tt) =
    (Done tt, mkWorld tt 0 []).
Proof.
  repeat split; vm_compute; reflexivity.
Qed.



(** C7. Name derivation. The name under which the revision cap deletes build
    [build] of [pipeline] is the lower-cased concatenation
    [pipeline + "-" + build] with every [/] and every [_] replaced by [-]
    (replacing before or after lowering comes to the same, as long as the
    Unicode case tables leave the separators alone); every over-limit
    deletion of a group carries such a name for a build of the group; and
    pipeline ["Team/App_X"] with build 42 gives ["team-app-x-42"]. *)
Theorem target_name_derivation {St : Type} `{!ActivityStore St}
    (o : GCActivitiesOptions) (rt : Runtime) (pipeline : string) (build : Z) :
  activityName rt pipeline build = spec_target_name rt pipeline build /\
  (keeps_separators (UnicodeLower rt) ->
   activityName rt pipeline build =
   dash_separators
     (ToLower (UnicodeLower rt) (pipeline ++ "-" ++ pretty build)%string)) /\
  (forall builds (w : World St),
      Forall (fun d : Deletion =>
                exists b, b ∈ builds /\
                          d = (spec_target_name rt pipeline b, OverLimit))
             (issued w (capGroup o rt pipeline builds w).2)) /\
  activityName rt "Team/App_X" 42 = "team-app-x-42"%string.
Proof.
  split; [apply activityName_spec|]. split; [|split; [|by vm_compute]].
  - intros Hf. unfold activityName, Sprintf_s_v.
    rewrite !ToLower_Replace by auto. apply Replace_dash_separators.
  - intros builds w. unfold capGroup.
    destruct (capLoop_plan o rt pipeline (sortInts builds)
                (S (length (sortInts builds))) 0 w)
      as (extra & He & Hall).
    rewrite (issued_app _ _ _ He).
    eapply Forall_impl; [exact Hall|].
    intros d (b & Hb & ->). exists b. split.
    + unfold sortInts in Hb. by rewrite merge_sort_Permutation in Hb.
    + by rewrite activityName_spec.
Qed.

Lemma target_name_derivation_witness :
  activityName (steady 0) "jenkins-x/Jx_Docs/master" 117 =
  dash_separators
    (ToLower (UnicodeLower (steady 0)) "jenkins-x/Jx_Docs/master-117").
Proof.
  assert (Hf : keeps_separators (UnicodeLower (steady 0)))
    by (intros s c _; reflexivity).
  exact (proj1 (proj2 (target_name_derivation (St := unit) (keep 5) (steady 0)
                         "jenkins-x/Jx_Docs/master" 117)) Hf).
Defined.

(** C5, as stated, fails: with a window of 2562048 hours the duration
    [time.Duration(2562048) * time.Hour] wraps around to a negative number of
    nanoseconds, and a pull-request activity that completed one hour ago is
    deleted although [completedAt + 2562048 hours] is far from before [now]. *)
Lemma age_expiry_window_overflow :
  Contains (Name pr_activity) "-pr-" = true /\
  (Name pr_activity, AgeExpired)
    ∈ issued (start tt)
        (visit long_window (steady Hour) true [] pr_activity ∅ (start tt)).2 /\
  ~ spec_age_expired long_window (Now (steady Hour) (ticks (start tt)))
      pr_activity.
Proof.
  split; [by vm_compute|]. split.
  - rewrite visit_issued.
    replace (visit_deletions _ _ _ _ _)
      with [(Name pr_activity, AgeExpired)] by (vm_compute; reflexivity).
    apply list_elem_of_here.
  - intros (t & Ht & Hlt). injection Ht as <-.
    vm_compute in Hlt. discriminate.
Qed.

(** C5, amended. As long as the window fits a duration (at most 2562047
    hours in absolute value), a record whose name contains ["-pr-"] is marked
    age-expired exactly when it has a [completedAt] and
    [completedAt + prHours hours] is strictly before the clock reading taken
    for it; a record without [completedAt] is never marked, and neither is
    one that completed exactly [prHours] hours before that reading. *)
Theorem age_expiry_decision {St : Type} `{!ActivityStore St}
    (o : GCActivitiesOptions) (rt : Runtime) (prowEnabled : bool)
    (jobNames : list string) (a : PipelineActivity)
    (m : gmap string (list Z)) (w : World St) :
  - 2562047 <= PullRequestHours o <= 2562047 ->
  Contains (Name a) "-pr-" = true ->
  let now := Now rt (ticks w) in
  let w' := (visit o rt prowEnabled jobNames a m w).2 in
  ((Name a, AgeExpired) ∈ issued w w' <-> spec_age_expired o now a) /\
  (CompletedTimestamp a = None -> (Name a, AgeExpired) ∉ issued w w') /\
  (forall t : Time,
      CompletedTimestamp a = Some t ->
      t + PullRequestHours o * Hour = now ->
      (Name a, AgeExpired) ∉ issued w w').
Proof.
  intros Hh Hc now w'.
  assert (Hiff : (Name a, AgeExpired) ∈ issued w w' <-> spec_age_expired o now a).
  { unfold w'. rewrite visit_issued. fold now.
    rewrite <- (age_expired_spec o now a Hh Hc).
    unfold visit_deletions.
    destruct (age_expired o now a).
    - split; [done|]. intros _. apply list_elem_of_here.
    - split; [|done]. destruct (orphan _ _ _).
      + intros Hin. apply list_elem_of_singleton in Hin. discriminate.
      + intros Hin. by apply elem_of_nil in Hin. }
  split; [exact Hiff|]. split.
  - intros Hnone Hin. apply Hiff in Hin.
    destruct Hin as (t & Ht & _). congruence.
  - intros t Ht Heq Hin. apply Hiff in Hin.
    destruct Hin as (t' & Ht' & Hlt).
    assert (t' = t) by congruence. subst t'. lia.
Qed.

Lemma age_expiry_decision_witness :
  (Name pr_activity, AgeExpired)
    ∈ issued (start tt)
        (visit (keep 5) (steady (48 * Hour + 1)) true [] pr_activity ∅
           (start tt)).2 /\
  (Name pr_activity, AgeExpired)
    ∉ issued (start tt)
        (visit (keep 5) (steady (48 * Hour)) true [] pr_activity ∅
           (start tt)).2.
Proof.
  assert (Hh : - 2562047 <= PullRequestHours (keep 5) <= 2562047)
    by (vm_compute; split; discriminate).
  assert (Hc : Contains (Name pr_activity) "-pr-" = true) by (vm_compute; reflexivity).
  split.
  - apply (proj1 (age_expiry_decision (St := unit) (keep 5)
                    (steady (48 * Hour + 1)) true [] pr_activity ∅ (start tt)
                    Hh Hc)).
    exists 0. split; [reflexivity|]. vm_compute. reflexivity.
  - apply (proj2 (proj2 (age_expiry_decision (St := unit) (keep 5)
                    (steady (48 * Hour)) true [] pr_activity ∅ (start tt)
                    Hh Hc)) 0); [reflexivity|].
    vm_compute. reflexivity.
Defined.

(** C6, as stated, fails: with prow not enabled and the job names [a] and
    [b], an expired pull-request activity of pipeline [c] is deleted as
    age-expired and the loop moves on; although [c] is no job, it is not
    marked orphaned. *)
Lemma expired_activity_not_marked_orphaned :
  (Pipeline pr_activity_no_job ∉ jenkins_jobs) /\
  Run (keep 5) (steady (100 * Hour)) [pr_activity_no_job] false
    jenkins_jobs (start tt) =
  (Done tt, mkWorld tt 1 [(Name pr_activity_no_job, AgeExpired)]) /\
  (Name pr_activity_no_job, Orphaned)
    ∉ plan (Run (keep 5) (steady (100 * Hour)) [pr_activity_no_job] false
              jenkins_jobs (start tt)).2.
Proof.
  assert (Hrun :
    Run (keep 5) (steady (100 * Hour)) [pr_activity_no_job] false
      jenkins_jobs (start tt) =
    (Done tt, mkWorld tt 1 [(Name pr_activity_no_job, AgeExpired)]))
    by (vm_compute; reflexivity).
  split; [|split; [exact Hrun|]].
  - intros Hin. apply matched_elem_of in Hin. vm_compute in Hin. discriminate.
  - rewrite Hrun. simpl. intros Hin.
    apply list_elem_of_singleton in Hin. discriminate.
Qed.

(** C6, amended. Orphan deletions occur only when prow is not enabled. With
    prow enabled the job names are not consulted: a run is the same whatever
    Jenkins would list, and it marks no record orphaned. With prow not
    enabled, a record is marked orphaned exactly when the age-expiry branch
    did not delete it and its pipeline is none of the job names; and over a
    whole run, every orphan deletion is that of an activity whose pipeline is
    none of the job names. *)
Theorem orphan_pass_gating {St : Type} `{!ActivityStore St}
    (o : GCActivitiesOptions) (rt : Runtime) :
  (forall items jobs (w : World St),
      Run o rt items true jobs w = Run o rt items true [] w /\
      Forall (fun d : Deletion => d.2 <> Orphaned)
        (issued w (Run o rt items true jobs w).2)) /\
  (forall jobs a m (w : World St),
      (Name a, Orphaned) ∈ issued w (visit o rt false jobs a m w).2 <->
      age_expired o (Now rt (ticks w)) a = false /\ Pipeline a ∉ jobs) /\
  (forall items jobs (w : World St),
      Forall (fun d : Deletion =>
                d.2 = Orphaned ->
                exists a, a ∈ items /\ d.1 = Name a /\ Pipeline a ∉ jobs)
        (issued w (Run o rt items false jobs w).2)).
Proof.
  split; [|split].
  - intros items jobs w. split; [done|].
    destruct (Run_plan o rt items true jobs w) as (first & capped & He & Hf & Hc).
    rewrite (issued_app _ _ _ He). apply Forall_app. split.
    + eapply Forall_impl; [exact Hf|].
      intros d (a & _ & _ & [Hd|(_ & [=] & _)]) Ho. congruence.
    + eapply Forall_impl; [exact Hc|]. intros d Hd Ho. congruence.
  - intros jobs a m w. rewrite visit_issued.
    unfold visit_deletions, orphan. simpl.
    destruct (age_expired _ _ _).
    + split; [|by intros [[=] _]].
      intros Hin. apply list_elem_of_singleton in Hin. discriminate.
    + destruct (matched a jobs) eqn:Hm; simpl.
      * split; [by intros Hin%elem_of_nil|].
        intros [_ Hnot]. destruct Hnot. by apply matched_elem_of.
      * split; [|intros _; apply list_elem_of_here].
        intros _. split; [done|].
        intros Hin%matched_elem_of. congruence.
  - intros items jobs w.
    destruct (Run_plan o rt items false jobs w) as (first & capped & He & Hf & Hc).
    rewrite (issued_app _ _ _ He). apply Forall_app. split.
    + eapply Forall_impl; [exact Hf|].
      intros d (a & Hin & Hn & [Hd|(_ & _ & Hj)]) Ho; [congruence|].
      by exists a.
    + eapply Forall_impl; [exact Hc|]. intros d Hd Ho. congruence.
Qed.

Lemma orphan_pass_gating_witness :
  (Name c_activity, Orphaned)
    ∈ issued (start tt)
        (visit (keep 5) (steady 0) false jenkins_jobs c_activity ∅
           (start tt)).2.
Proof.
  apply (proj1 (proj2 (orphan_pass_gating (St := unit) (keep 5) (steady 0)))).
  split; [vm_compute; reflexivity|].
  intros Hin. apply matched_elem_of in Hin. vm_compute in Hin. discriminate.
Defined.

(** C1: the code at the failing input. With prow not enabled and neither
    [c-1] nor [c-2] belonging to a job, both activities are deleted as
    orphans and their builds are collected all the same; under a limit of 1
    the revision cap then deletes [c-1] a second time, and against the
    cluster that second call fails. *)
Theorem orphan_still_grouped :
  (exists m : gmap string (list Z),
      scan (keep 1) (steady 0) false jenkins_jobs
        [c_activity; c_activity_2] ∅ (start tt) =
      (Done m, mkWorld tt 0 [("c-1"%string, Orphaned); ("c-2"%string, Orphaned)]) /\
      m !! "c"%string = Some [1; 2]) /\
  Run (keep 1) (steady 0) [c_activity; c_activity_2] false jenkins_jobs
    (start tt) =
  (Done tt,
   mkWorld tt 0
     [("c-1"%string, Orphaned); ("c-2"%string, Orphaned);
      ("c-1"%string, OverLimit)]) /\
  Run (keep 1) (steady 0) [c_activity; c_activity_2] false jenkins_jobs
    (start ["c-1"; "c-2"]%string) =
  (Fail (FailedToDelete "c-1"),
   mkWorld [] 0
     [("c-1"%string, Orphaned); ("c-2"%string, Orphaned);
      ("c-1"%string, OverLimit)]).
Proof.
  split; [|split].
  - eexists. split; [vm_compute; reflexivity|]. vm_compute. reflexivity.
  - vm_compute. reflexivity.
  - vm_compute. reflexivity.
Qed.

(** C2, as stated, fails: the expired pull-request activity that precedes
    the activity with the build field ["x"] has been deleted from the cluster
    by the time the conversion error is returned; and an expired
    pull-request activity whose own build field is ["one"] causes no
    conversion error at all. *)
Lemma conversion_failure_after_deletion :
  Atoi (Build d_activity_bad_build) = None /\
  Run (keep 5) (steady (100 * Hour)) [pr_activity; d_activity_bad_build]
    true [] (start [Name pr_activity; Name d_activity_bad_build]) =
  (Fail (NumError "x"),
   mkWorld [Name d_activity_bad_build] 1 [(Name pr_activity, AgeExpired)]) /\
  Atoi (Build pr_activity_bad_build) = None /\
  Run (keep 5) (steady (100 * Hour)) [pr_activity_bad_build; d_activity]
    true [] (start [Name pr_activity_bad_build; Name d_activity]) =
  (Done tt,
   mkWorld [Name d_activity] 1 [(Name pr_activity_bad_build, AgeExpired)]).
Proof. repeat split; vm_compute; reflexivity. Qed.

(** C2, amended. When the first loop reaches, without an earlier error, a
    record that the age-expiry branch does not delete and whose build field
    does not parse as an integer, the call fails with the conversion error
    and issues no over-limit deletion. The failure is not atomic: the plan and
    the store at that point are those left by the age-expiry and orphan
    deletions of the records before it (and of the record itself, when it is
    an orphan), not those the call started from. *)
Theorem conversion_failure_keeps_deletions {St : Type} `{!ActivityStore St}
    (o : GCActivitiesOptions) (rt : Runtime) (prowEnabled : bool)
    (jobs : list string) (pre : list PipelineActivity) (a : PipelineActivity)
    (post : list PipelineActivity) (m1 : gmap string (list Z))
    (w w1 : World St) :
  let jobNames := if prowEnabled then [] else jobs in
  scan o rt prowEnabled jobNames pre ∅ w = (Done m1, w1) ->
  age_expired o (Now rt (ticks w1)) a = false ->
  Atoi (Build a) = None ->
  (orphan prowEnabled jobNames a = true ->
   is_Some (Delete (Name a) (store w1))) ->
  let r := Run o rt (pre ++ a :: post) prowEnabled jobs w in
  r.1 = Fail (NumError (Build a)) /\
  plan r.2 =
    plan w1 ++
    (if orphan prowEnabled jobNames a then [(Name a, Orphaned)] else []) /\
  store r.2 =
    (if orphan prowEnabled jobNames a
     then default (store w1) (Delete (Name a) (store w1))
     else store w1) /\
  Forall (fun d : Deletion => d.2 <> OverLimit) (issued w r.2).
Proof.
  intros jobNames Hpre Hage Hbuild Hdel r.
  destruct (scan_plan o rt prowEnabled jobNames pre ∅ w) as (e1 & He1 & Hf1).
  rewrite Hpre in He1. simpl in He1.
  assert (Hno : Forall (fun d : Deletion => d.2 <> OverLimit) e1).
  { eapply Forall_impl; [exact Hf1|].
    intros d (x & _ & _ & [Hd|(Hd & _)]); congruence. }
  assert (Hr : r =
    if orphan prowEnabled jobNames a then
      match Delete (Name a) (store w1) with
      | Some s' =>
          (Fail (NumError (Build a)),
           mkWorld s' (ticks w1 + readings a) (plan w1 ++ [(Name a, Orphaned)]))
      | None =>
          (Fail (ClientError (Name a)),
           mkWorld (store w1) (ticks w1 + readings a)
             (plan w1 ++ [(Name a, Orphaned)]))
      end
    else (Fail (NumError (Build a)), after_check a w1)).
  { unfold r.
    rewrite (Run_reaches o rt prowEnabled jobs pre a post m1 w w1 Hpre).
    fold jobNames. unfold bind at 1.
    rewrite (visit_unparsable o rt prowEnabled jobNames a m1 w1 Hage Hbuild).
    destruct (orphan _ _ _); [|done]. by destruct (Delete _ _). }
  rewrite Hr. clear Hr.
  destruct (orphan prowEnabled jobNames a).
  - destruct (Hdel eq_refl) as [s' Hs']. rewrite Hs'.
    split; [done|]. split; [done|]. split; [done|].
    rewrite (issued_app w _ (e1 ++ [(Name a, Orphaned)])).
    + apply Forall_app. split; [done|].
      apply Forall_cons. split; [done|apply Forall_nil_2].
    + simpl. by rewrite He1, app_assoc.
  - split; [done|]. split; [simpl; by rewrite app_nil_r|]. split; [done|].
    rewrite (issued_app w _ e1); [done|]. simpl. by rewrite He1.
Qed.

Lemma conversion_failure_keeps_deletions_witness :
  (Run (keep 5) (steady (100 * Hour))
     ([pr_activity] ++ d_activity_bad_build :: [c_activity])
     true [] (start [Name pr_activity; Name d_activity_bad_build])).1 =
  Fail (NumError "x").
Proof.
  refine (proj1 (conversion_failure_keeps_deletions (St := list string)
            (keep 5) (steady (100 * Hour)) true [] [pr_activity]
            d_activity_bad_build [c_activity] ∅
            (start [Name pr_activity; Name d_activity_bad_build])
            (mkWorld [Name d_activity_bad_build] 1
               [(Name pr_activity, AgeExpired)])
            _ _ _ _)).
  - vm_compute. reflexivity.
  - vm_compute. reflexivity.
  - vm_compute. reflexivity.
  - vm_compute. discriminate.
Defined.

(** C3, as stated, fails: an expired pull-request activity whose build field
    is ["one"] is deleted and skipped before the field is converted, and the
    run ends without an error. *)
Lemma unparsable_build_of_expired_activity :
  Atoi (Build pr_activity_bad_build) = None /\
  Run (keep 5) (steady (100 * Hour)) [pr_activity_bad_build] true []
    (start [Name pr_activity_bad_build]) =
  (Done tt, mkWorld [] 1 [(Name pr_activity_bad_build, AgeExpired)]).
Proof. split; vm_compute; reflexivity. Qed.

(** C3, amended. A record whose build field is not convertible to an integer
    and which the first loop reaches without an earlier error makes the whole
    pass a hard error unless the age-expiry branch deletes it, and this
    whether or not the record is an orphan (an orphan is deleted first, and
    the error follows when that call succeeds); a record that the age-expiry
    branch deletes is skipped before its build field is converted, and the run
    goes on with the build numbers collected so far. *)
Theorem unparsable_build_fatal_unless_expired {St : Type} `{!ActivityStore St}
    (o : GCActivitiesOptions) (rt : Runtime) (prowEnabled : bool)
    (jobs : list string) (pre : list PipelineActivity) (a : PipelineActivity)
    (post : list PipelineActivity) (m1 : gmap string (list Z))
    (w w1 : World St) :
  let jobNames := if prowEnabled then [] else jobs in
  scan o rt prowEnabled jobNames pre ∅ w = (Done m1, w1) ->
  Atoi (Build a) = None ->
  (age_expired o (Now rt (ticks w1)) a = false ->
   (orphan prowEnabled jobNames a = true ->
    is_Some (Delete (Name a) (store w1))) ->
   (Run o rt (pre ++ a :: post) prowEnabled jobs w).1
     = Fail (NumError (Build a))) /\
  (age_expired o (Now rt (ticks w1)) a = true ->
   forall s' : St,
     Delete (Name a) (store w1) = Some s' ->
     exists w2 : World St,
       visit o rt prowEnabled jobNames a m1 w1 = (Done m1, w2) /\
       issued w1 w2 = [(Name a, AgeExpired)] /\
       Run o rt (pre ++ a :: post) prowEnabled jobs w =
       (m3 <- scan o rt prowEnabled jobNames post m1 ;;
        capAll o rt (RangeOrder rt m3)) w2).
Proof.
  intros jobNames Hpre Hbuild.
  pose proof (Run_reaches o rt prowEnabled jobs pre a post m1 w w1 Hpre) as Hrun.
  fold jobNames in Hrun. split.
  - intros Hage Hdel. rewrite Hrun. unfold bind at 1.
    rewrite (visit_unparsable o rt prowEnabled jobNames a m1 w1 Hage Hbuild).
    destruct (orphan _ _ _); [|done].
    destruct (Hdel eq_refl) as [s' Hs']. by rewrite Hs'.
  - intros Hage s' Hdel.
    pose proof (visit_expired o rt prowEnabled jobNames a m1 w1 s' Hage Hdel)
      as Hv.
    eexists. split; [exact Hv|]. split.
    + by apply issued_app.
    + rewrite Hrun. unfold bind at 1. by rewrite Hv.
Qed.

Lemma unparsable_build_fatal_unless_expired_witness :
  (Run (keep 5) (steady 0) ([c_activity] ++ d_activity_bad_build :: [])
     false jenkins_jobs (start [Name c_activity; Name d_activity_bad_build])).1
  = Fail (NumError "x").
Proof.
  refine (proj1 (unparsable_build_fatal_unless_expired (St := list string)
            (keep 5) (steady 0) false jenkins_jobs [c_activity]
            d_activity_bad_build [] {[ "c"%string := [1] ]}
            (start [Name c_activity; Name d_activity_bad_build])
            (mkWorld [Name d_activity_bad_build] 0
               [(Name c_activity, Orphaned)])
            _ _) _ _).
  - vm_compute. reflexivity.
  - vm_compute. reflexivity.
  - vm_compute. reflexivity.
  - intros _. vm_compute. eexists. reflexivity.
Defined.

(** C9, as stated, fails: under a limit of 0, two runs over the same two
    activities, with the same clock and the same options, list the two
    over-limit deletions in different orders when the [range] over the map
    of builds visits the pipelines in different orders, as Go allows. *)
Lemma range_order_shows_in_plan :
  range_valid (steady 0) /\ range_valid (steady_rev 0) /\
  Now (steady 0) = Now (steady_rev 0) /\
  Run (keep 0) (steady 0) [c_activity; d_activity] true [] (start tt) =
    (Done tt,
     mkWorld tt 0 [("c-1"%string, OverLimit); ("d-2"%string, OverLimit)]) /\
  Run (keep 0) (steady_rev 0) [c_activity; d_activity] true [] (start tt) =
    (Done tt,
     mkWorld tt 0 [("d-2"%string, OverLimit); ("c-1"%string, OverLimit)]).
Proof.
  split; [by intros m|]. split; [intros m; apply reverse_Permutation|].
  split; [done|]. split; vm_compute; reflexivity.
Qed.

(** C9, amended. For a fixed input (activities, prow flag, job names,
    options with a revision history limit that is not negative) and fixed
    clock readings, two runs go through the first loop in the same way, and
    when both run to their end they have deleted the same records: their
    plans are permutations of each other and agree, in order, on the
    age-expiry and orphan deletions. Against a store that accepts every call
    two runs always end the same way with such plans. The order in which the
    over-limit deletions of different pipelines are listed is that of Go's
    map iteration and is not determined by the input. *)
Theorem run_determined_up_to_range_order {St : Type} `{!ActivityStore St}
    (o : GCActivitiesOptions) (rt1 rt2 : Runtime)
    (items : list PipelineActivity) (prowEnabled : bool) (jobs : list string)
    (w : World St) :
  range_valid rt1 -> range_valid rt2 ->
  Now rt1 = Now rt2 ->
  UnicodeLower rt1 = UnicodeLower rt2 ->
  0 <= RevisionHistoryLimit o <= int_max ->
  let jobNames := if prowEnabled then [] else jobs in
  let r1 := Run o rt1 items prowEnabled jobs w in
  let r2 := Run o rt2 items prowEnabled jobs w in
  scan o rt1 prowEnabled jobNames items ∅ w =
  scan o rt2 prowEnabled jobNames items ∅ w /\
  (r1.1 = Done tt -> r2.1 = Done tt ->
   plan r1.2 ≡ₚ plan r2.2 /\
   filter (fun d : Deletion => d.2 <> OverLimit) (plan r1.2) =
   filter (fun d : Deletion => d.2 <> OverLimit) (plan r2.2)) /\
  (forall w0 : World unit,
      let q1 := Run o rt1 items prowEnabled jobs w0 in
      let q2 := Run o rt2 items prowEnabled jobs w0 in
      q1.1 = q2.1 /\
      plan q1.2 ≡ₚ plan q2.2 /\
      filter (fun d : Deletion => d.2 <> OverLimit) (plan q1.2) =
      filter (fun d : Deletion => d.2 <> OverLimit) (plan q2.2)).
Proof.
  intros Hv1 Hv2 Hnow Hu Hl. cbv zeta.
  assert (Hsame : forall m : gmap string (list Z),
    (RangeOrder rt1 m ≫= fun g => over_limit o rt1 g.1 g.2) ≡ₚ
    (RangeOrder rt2 m ≫= fun g => over_limit o rt2 g.1 g.2)).
  { intros m.
    assert (Hperm : RangeOrder rt1 m ≡ₚ RangeOrder rt2 m)
      by (by rewrite (Hv1 m), (Hv2 m)).
    rewrite Hperm.
    rewrite (list_bind_ext (fun g => over_limit o rt1 g.1 g.2)
               (fun g => over_limit o rt2 g.1 g.2)
               (RangeOrder rt2 m) (RangeOrder rt2 m)); [done| |done].
    intros g. by apply over_limit_same_tables. }
  split; [by apply scan_same_clock|]. split.
  - unfold Run. destruct items as [|a items]; [done|].
    unfold bind.
    rewrite (scan_same_clock o rt1 rt2 _ _ _ _ _ Hnow).
    destruct (scan o rt2 _ _ _ _ _) as [[m| |] w']; [|done|done].
    destruct (capAll o rt1 _ w') as [out1 w1] eqn:H1.
    destruct (capAll o rt2 _ w') as [out2 w2] eqn:H2.
    simpl. intros -> ->.
    rewrite (capAll_done o rt1 _ _ _ Hl H1), (capAll_done o rt2 _ _ _ Hl H2).
    split.
    + by rewrite (Hsame m).
    + by rewrite !filter_app, !over_limit_reason.
  - intros w0. unfold Run. destruct items as [|a items]; [done|].
    unfold bind.
    rewrite (scan_same_clock o rt1 rt2 _ _ _ _ _ Hnow).
    destruct (scan o rt2 _ _ _ _ _) as [[m| |] w']; [|done|done].
    rewrite !capAll_accept by done. simpl.
    split; [done|]. split.
    + by rewrite (Hsame m).
    + by rewrite !filter_app, !over_limit_reason.
Qed.

Lemma run_determined_up_to_range_order_witness :
  plan (Run (keep 0) (steady 0) [c_activity; d_activity] true []
          (start tt)).2
  ≡ₚ plan (Run (keep 0) (steady_rev 0) [c_activity; d_activity] true []
             (start tt)).2.
Proof.
  refine (proj1 (proj2 (proj2 (proj2 (run_determined_up_to_range_order
            (St := unit) (keep 0) (steady 0) (steady_rev 0)
            [c_activity; d_activity] true [] (start tt) _ _ _ _ _))
            (start tt)))).
  - intros m. reflexivity.
  - intros m. apply reverse_Permutation.
  - reflexivity.
  - reflexivity.
  - vm_compute. split; discriminate.
Defined.

(** The assertion of [TestParsePullRefs]. *)
Example TestParsePullRefs : parseRefSet test_pull_refs = Some test_expected.
Proof. vm_compute. reflexivity. Qed.

(** C8, as stated, fails: two merge pairs with the same change identifier are
    well-formed input, and the mapping keeps only the later one. *)
Lemma repeated_change_identifier :
  Forall (fun kv : string * string => plain kv.1 = true /\ plain kv.2 = true)
    (("master", "aaa")%string :: repeated_change) /\
  encodeRefSet ("master", "aaa")%string repeated_change
    = "master:aaa,12:bbb,12:ccc"%string /\
  exists r : RefSet,
    parseRefSet (encodeRefSet ("master", "aaa")%string repeated_change)
      = Some r /\
    ("12", "bbb")%string ∈ repeated_change /\
    toMerge r !! "12"%string = Some "ccc"%string.
Proof.
  split; [|split; [by vm_compute|]].
  - repeat (apply Forall_cons; split; [by vm_compute|]). apply Forall_nil_2.
  - eexists. split; [vm_compute; reflexivity|].
    split; [apply list_elem_of_here|by vm_compute].
Qed.

(** C8, amended. For every base pair and every N >= 0 merge pairs with
    pairwise distinct change identifiers, keys and values free of [:] and
    [,], parsing the encoding ["k0:v0,k1:v1,...,kN:vN"] succeeds and returns
    the base branch [k0], the base sha [v0] and a mapping that contains
    exactly the N merge pairs. *)
Theorem parse_encode_round_trip (k0 v0 : string)
    (merges : list (string * string)) :
  plain k0 = true -> plain v0 = true ->
  Forall (fun kv => plain kv.1 = true /\ plain kv.2 = true) merges ->
  NoDup merges.*1 ->
  exists r : RefSet,
    parseRefSet (encodeRefSet (k0, v0) merges) = Some r /\
    baseBranch r = k0 /\ baseSha r = v0 /\
    (forall k v : string, toMerge r !! k = Some v <-> (k, v) ∈ merges) /\
    size (toMerge r) = length merges.
Proof.
  intros Hk Hv Hall Hnd. eexists. split.
  - apply parse_encode. by apply Forall_cons.
  - simpl. split; [done|]. split; [done|]. split.
    + intros k v. by apply merge_map_lookup.
    + by apply merge_map_size.
Qed.

Lemma parse_encode_round_trip_witness :
  exists r : RefSet,
    parseRefSet "master:aaa,12:bbb,34:ccc" = Some r /\
    baseBranch r = "master"%string /\ baseSha r = "aaa"%string /\
    (forall k v : string, toMerge r !! k = Some v <-> (k, v) ∈ two_changes) /\
    size (toMerge r) = 2%nat.
Proof.
  refine (parse_encode_round_trip "master" "aaa" two_changes _ _ _ _).
  - vm_compute. reflexivity.
  - vm_compute. reflexivity.
  - repeat (apply Forall_cons; split; [by vm_compute|]). apply Forall_nil_2.
  - refine (bool_decide_unpack _ _). vm_compute. exact I.
Defined.

(** * Further properties of the command *)

(** ** The first loop *)

Section FirstLoop.

Context {St : Type} `{!ActivityStore St}.
Variable o : GCActivitiesOptions.
Variable rt : Runtime.

(** A turn that ends well has either taken the age-expiry branch and left
    the builds alone, or converted the build field and appended it. *)
Lemma visit_done prowEnabled jobNames a m m1 (w w1 : World St) :
  visit o rt prowEnabled jobNames a m w = (Done m1, w1) ->
  ticks w1 = (ticks w + readings a)%nat /\
  ((age_expired o (Now rt (ticks w)) a = true /\ m1 = m) \/
   (age_expired o (Now rt (ticks w)) a = false /\
    exists n, Atoi (Build a) = Some n /\
      m1 = <[Pipeline a := default [] (m !! Pipeline a) ++ [n]]> m)).
Proof.
  rewrite visit_eq. destruct (age_expired _ _ _).
  - unfold bind, deleteActivity, ret, after_check. simpl.
    destruct (Delete _ _); [|done]. intros [= <- <-]. simpl. split; [done|].
    by left.
  - unfold bind, deleteActivity, atoi, raise, ret, after_check. simpl.
    destruct (orphan _ _ _).
    + destruct (Delete _ _); [|done]. simpl.
      destruct (Atoi (Build a)) as [n|] eqn:Hn; [|done].
      intros [= <- <-]. simpl. split; [done|]. right. split; [done|].
      by exists n.
    + destruct (Atoi (Build a)) as [n|] eqn:Hn; [|done].
      intros [= <- <-]. simpl. split; [done|]. right. split; [done|].
      by exists n.
Qed.

(** The builds a completed first loop has collected for a pipeline are those
    it started with followed by the build numbers of the surviving
    activities of that pipeline, in the order of the snapshot. *)
Lemma scan_groups prowEnabled jobNames items m m' (w w' : World St) :
  scan o rt prowEnabled jobNames items m w = (Done m', w') ->
  ticks w' = (ticks w + readings_of items)%nat /\
  forall pipeline : string,
    Some <$> default [] (m' !! pipeline) =
    (Some <$> default [] (m !! pipeline)) ++
    builds_of pipeline (survivors o rt (ticks w) items).
Proof.
  revert m w. induction items as [|a items IH]; intros m w; simpl.
  - intros [= <- <-]. split; [lia|]. intros p. unfold builds_of.
    by rewrite filter_nil, fmap_nil, app_nil_r.
  - unfold bind.
    destruct (visit o rt prowEnabled jobNames a m w) as [[m1| |] w1] eqn:Hv;
      [|done|done].
    intros Hrest. destruct (visit_done _ _ _ _ _ _ _ Hv) as [Ht Hcase].
    destruct (IH _ _ Hrest) as [Ht' Hg]. split; [lia|].
    intros p. rewrite (Hg p), Ht.
    destruct Hcase as [[-> ->]|(-> & n & Hn & ->)]; [done|].
    unfold builds_of. rewrite filter_cons.
    destruct (decide (Pipeline a = p)) as [<-|Hne].
    + rewrite lookup_insert_eq. simpl.
      by rewrite fmap_app, <- app_assoc, Hn.
    + by rewrite lookup_insert_ne.
Qed.

Lemma scan_groups_empty prowEnabled jobNames items m' (w w' : World St)
    (pipeline : string) (builds : list Z) :
  scan o rt prowEnabled jobNames items ∅ w = (Done m', w') ->
  m' !! pipeline = Some builds ->
  Some <$> builds = builds_of pipeline (survivors o rt (ticks w) items).
Proof.
  intros Hs Hm. destruct (scan_groups _ _ _ _ _ _ _ Hs) as [_ Hg].
  specialize (Hg pipeline). by rewrite Hm, lookup_empty in Hg.
Qed.

(** Every group of a first loop started on the empty map is non-empty. *)
Lemma scan_nonempty prowEnabled jobNames items m m' (w w' : World St) :
  (forall p bs, m !! p = Some bs -> bs <> []) ->
  scan o rt prowEnabled jobNames items m w = (Done m', w') ->
  forall p bs, m' !! p = Some bs -> bs <> [].
Proof.
  revert m w. induction items as [|a items IH]; intros m w Hm; simpl.
  - by intros [= <- <-].
  - unfold bind.
    destruct (visit o rt prowEnabled jobNames a m w) as [[m1| |] w1] eqn:Hv;
      [|done|done].
    apply IH.
    destruct (visit_done _ _ _ _ _ _ _ Hv)
      as [_ [[_ ->]|(_ & n & _ & ->)]]; [done|].
    intros p bs. destruct (decide (Pipeline a = p)) as [<-|Hne].
    + rewrite lookup_insert_eq. intros [= <-]. by destruct (default _ _).
    + rewrite lookup_insert_ne by done. apply Hm.
Qed.

Lemma survivors_subseteq t items : survivors o rt t items ⊆ items.
Proof.
  revert t. induction items as [|a items IH]; intros t; simpl; [done|].
  destruct (age_expired _ _ _).
  - intros x Hx. apply list_elem_of_further.
    exact (IH (t + readings a)%nat x Hx).
  - intros x [->|Hx]%elem_of_cons.
    + apply list_elem_of_here.
    + apply list_elem_of_further.
      exact (IH (t + readings a)%nat x Hx).
Qed.

Lemma length_survivors t items :
  (length (survivors o rt t items) <= length items)%nat.
Proof.
  revert t. induction items as [|a items IH]; intros t; simpl; [done|].
  destruct (age_expired _ _ _); simpl; specialize (IH (t + readings a)%nat); lia.
Qed.

(** Activities without the pull-request marker all survive. *)
Lemma survivors_no_marker t items :
  Forall (fun a => Contains (Name a) "-pr-" = false) items ->
  survivors o rt t items = items.
Proof.
  revert t. induction items as [|a items IH]; intros t Hall; simpl; [done|].
  inversion Hall as [|? ? Ha Hrest]; subst.
  unfold age_expired. rewrite Ha. simpl. by rewrite IH.
Qed.

(** The deletions of the first loop follow the decisions, whatever the store
    answers: all of them when the loop completes, a prefix otherwise. *)
Lemma scan_decisions prowEnabled jobNames items m (w : World St) :
  let r := scan o rt prowEnabled jobNames items m w in
  let all := decisions o rt (ticks w) prowEnabled jobNames items in
  issued w r.2 `prefix_of` all /\
  (forall m', r.1 = Done m' -> issued w r.2 = all).
Proof.
  revert m w. induction items as [|a items IH]; intros m w; cbv zeta; simpl.
  - rewrite (issued_app w w []) by (by rewrite app_nil_r). done.
  - unfold bind.
    pose proof (visit_plan o rt prowEnabled jobNames a m w) as Hp.
    destruct (visit o rt prowEnabled jobNames a m w) as [[m1| |] w1] eqn:Hv;
      simpl in Hp.
    + destruct (visit_done _ _ _ _ _ _ _ Hv) as [Ht _].
      destruct (IH m1 w1) as [Hpre Hall]. cbv zeta in Hpre, Hall.
      rewrite Ht in Hpre, Hall.
      assert (Hi : issued w (scan o rt prowEnabled jobNames items m1 w1).2 =
                   visit_deletions o (Now rt (ticks w)) prowEnabled jobNames a ++
                   issued w1 (scan o rt prowEnabled jobNames items m1 w1).2).
      { destruct (scan_plan o rt prowEnabled jobNames items m1 w1)
          as (extra & He & _).
        rewrite (issued_app _ _ _ He).
        apply issued_app. by rewrite He, Hp, app_assoc. }
      rewrite Hi. split.
      * by apply prefix_app.
      * intros m' Hd. by rewrite (Hall m' Hd).
    + simpl. rewrite (issued_app _ _ _ Hp). split; [|done].
      by apply prefix_app_r.
    + by destruct (visit_no_panic o rt prowEnabled jobNames a m w); rewrite Hv.
Qed.

End FirstLoop.

(** ** How a run fails *)

Section Failures.

Context {St : Type} `{!ActivityStore St}.
Variable o : GCActivitiesOptions.
Variable rt : Runtime.

(** A turn of the first loop fails either on the build field, or on its own
    [Delete] call, which is then the last one issued and has left the store
    as it was. *)
Lemma visit_fail prowEnabled jobNames a m e (w w' : World St) :
  visit o rt prowEnabled jobNames a m w = (Fail e, w') ->
  (e = NumError (Build a) /\ Atoi (Build a) = None) \/
  (e = ClientError (Name a) /\
   Delete (Name a) (store w') = None /\
   exists why, why <> OverLimit /\ plan w' = plan w ++ [(Name a, why)]).
Proof.
  rewrite visit_eq. destruct (age_expired _ _ _).
  - unfold bind, deleteActivity, ret, after_check. simpl.
    destruct (Delete _ _) eqn:Hd; [done|]. intros [= <- <-]. simpl.
    right. split; [done|]. split; [done|]. by exists AgeExpired.
  - unfold bind, deleteActivity, atoi, raise, ret, after_check. simpl.
    destruct (orphan _ _ _).
    + destruct (Delete _ _) eqn:Hd; simpl.
      * destruct (Atoi (Build a)) eqn:Hn; [done|]. intros [= <- <-]. by left.
      * intros [= <- <-]. simpl. right. split; [done|]. split; [done|].
        by exists Orphaned.
    + destruct (Atoi (Build a)) eqn:Hn; [done|]. intros [= <- <-]. by left.
Qed.

Lemma scan_fail prowEnabled jobNames items m e (w w' : World St) :
  scan o rt prowEnabled jobNames items m w = (Fail e, w') ->
  (exists a, a ∈ items /\ e = NumError (Build a) /\ Atoi (Build a) = None) \/
  (exists a why pre,
      a ∈ items /\ e = ClientError (Name a) /\ why <> OverLimit /\
      plan w' = plan w ++ pre ++ [(Name a, why)] /\
      Delete (Name a) (store w') = None).
Proof.
  revert m w. induction items as [|a items IH]; intros m w; simpl; [done|].
  unfold bind.
  pose proof (visit_plan o rt prowEnabled jobNames a m w) as Hp.
  destruct (visit o rt prowEnabled jobNames a m w) as [[m1| |] w1] eqn:Hv;
    simpl in Hp; [| |done].
  - intros Hrest. destruct (IH _ _ Hrest)
      as [(x & Hx & He & Hn)|(x & why & pre & Hx & He & Hw & Hpl & Hd)].
    + left. exists x. split; [by apply list_elem_of_further|done].
    + right. exists x, why,
        (visit_deletions o (Now rt (ticks w)) prowEnabled jobNames a ++ pre).
      split; [by apply list_elem_of_further|]. split; [done|].
      split; [done|]. split; [|done].
      by rewrite Hpl, Hp, <- !app_assoc.
  - intros [= <- <-].
    destruct (visit_fail _ _ _ _ _ _ _ Hv)
      as [[He Hn]|(He & Hd & why & Hw & Hpl)].
    + left. exists a. split; [apply list_elem_of_here|done].
    + right. exists a, why, []. split; [apply list_elem_of_here|].
      by rewrite app_nil_l.
Qed.

(** The inner loop fails only on a [Delete] call, which is then the last one
    issued and has left the store as it was. *)
Lemma capLoop_fail pipeline builds fuel i e (w w' : World St) :
  capLoop o rt pipeline builds fuel i w = (Fail e, w') ->
  exists name pre,
    e = FailedToDelete name /\
    plan w' = plan w ++ pre ++ [(name, OverLimit)] /\
    Delete name (store w') = None.
Proof.
  revert i w. induction fuel as [|fuel IH]; intros i w; [done|].
  rewrite capLoop_S. destruct (i <? _); [|done].
  destruct (builds !! Z.to_nat i) as [b|]; [|done].
  unfold bind, deleteActivity.
  destruct (Delete _ (store w)) as [s'|] eqn:Hd; simpl.
  - intros Hrest. destruct (IH _ _ Hrest) as (name & pre & He & Hpl & Hdel).
    exists name, ((activityName rt pipeline b, OverLimit) :: pre).
    split; [done|]. split; [|done]. rewrite Hpl. simpl.
    by rewrite <- app_assoc.
  - intros [= <- <-]. exists (activityName rt pipeline b), []. by simpl.
Qed.

Lemma capAll_fail groups e (w w' : World St) :
  capAll o rt groups w = (Fail e, w') ->
  exists name pre,
    e = FailedToDelete name /\
    plan w' = plan w ++ pre ++ [(name, OverLimit)] /\
    Delete name (store w') = None.
Proof.
  revert w. induction groups as [|[pipeline builds] groups IH]; intros w;
    simpl; [done|].
  unfold bind.
  destruct (capAll_plan o rt [(pipeline, builds)] w) as (e1 & He1 & _).
  simpl in He1. unfold bind in He1.
  destruct (capGroup o rt pipeline builds w) as [[[]| |] w1] eqn:Hg.
  - simpl in He1. intros Hrest.
    destruct (IH _ Hrest) as (name & pre & He & Hpl & Hdel).
    exists name, (e1 ++ pre). split; [done|]. split; [|done].
    by rewrite Hpl, He1, <- !app_assoc.
  - intros [= <- <-]. unfold capGroup in Hg. by apply capLoop_fail in Hg.
  - done.
Qed.

End Failures.

(** The three ways in which a run fails. *)
Lemma Run_fail {St : Type} `{!ActivityStore St} o rt items prowEnabled jobs e
    (w w' : World St) :
  Run o rt items prowEnabled jobs w = (Fail e, w') ->
  (exists a, a ∈ items /\ e = NumError (Build a) /\ Atoi (Build a) = None /\
     Forall (fun d : Deletion => d.2 <> OverLimit) (issued w w')) \/
  (exists a why pre,
      a ∈ items /\ e = ClientError (Name a) /\ why <> OverLimit /\
      plan w' = plan w ++ pre ++ [(Name a, why)] /\
      Delete (Name a) (store w') = None) \/
  (exists name pre,
      e = FailedToDelete name /\
      plan w' = plan w ++ pre ++ [(name, OverLimit)] /\
      Delete name (store w') = None).
Proof.
  unfold Run. destruct items as [|a0 items]; [done|].
  set (jobNames := if prowEnabled then [] else jobs).
  unfold bind.
  destruct (scan_plan o rt prowEnabled jobNames (a0 :: items) ∅ w)
    as (first & Hf & Hall).
  destruct (scan o rt prowEnabled jobNames (a0 :: items) ∅ w)
    as [[m| |] w1] eqn:Hs; simpl in Hf.
  - intros Hc. right. right.
    destruct (capAll_fail o rt _ _ _ _ Hc) as (name & pre & He & Hpl & Hd).
    exists name, (first ++ pre). split; [done|]. split; [|done].
    by rewrite Hpl, Hf, <- !app_assoc.
  - intros [= <- <-].
    destruct (scan_fail o rt _ _ _ _ _ _ _ Hs)
      as [(x & Hx & He & Hn)|(x & why & pre & Hx & He & Hw & Hpl & Hd)].
    + left. exists x. split; [done|]. split; [done|]. split; [done|].
      rewrite (issued_app _ _ _ Hf).
      eapply Forall_impl; [exact Hall|].
      intros d (y & _ & _ & [Hd|(Hd & _)]); congruence.
    + right. left. by exists x, why, pre.
  - done.
Qed.

Lemma length_decisions o rt t prowEnabled jobNames items :
  (length (decisions o rt t prowEnabled jobNames items) <= length items)%nat.
Proof.
  revert t. induction items as [|a items IH]; intros t; [done|].
  simpl. rewrite length_app. specialize (IH (t + readings a)%nat).
  assert (length (visit_deletions o (Now rt t) prowEnabled jobNames a) <= 1)%nat.
  { unfold visit_deletions. by repeat case_match; simpl; lia. }
  lia.
Qed.

(** X1. Whatever the store answers, the first loop issues its deletions in
    the order of the snapshot, at most one per activity, as [decisions]
    lists them from the names, pipelines, timestamps, job names and clock
    readings alone: all of them when the loop completes, a prefix of them
    when it stops on an error. *)
Theorem first_loop_follows_decisions {St : Type} `{!ActivityStore St}
    (o : GCActivitiesOptions) (rt : Runtime) (prowEnabled : bool)
    (jobNames : list string) (items : list PipelineActivity)
    (m : gmap string (list Z)) (w : World St) :
  let r := scan o rt prowEnabled jobNames items m w in
  let all := decisions o rt (ticks w) prowEnabled jobNames items in
  issued w r.2 `prefix_of` all /\
  (length all <= length items)%nat /\
  (forall m', r.1 = Done m' -> issued w r.2 = all).
Proof.
  cbv zeta. destruct (scan_decisions o rt prowEnabled jobNames items m w)
    as [Hpre Hall].
  split; [exact Hpre|]. split; [apply length_decisions|exact Hall].
Qed.

Lemma first_loop_follows_decisions_witness :
  issued (start tt)
    (scan (keep 5) (steady (100 * Hour)) false jenkins_jobs
       [pr_activity; c_activity] ∅ (start tt)).2
  = [(Name pr_activity, AgeExpired); (Name c_activity, Orphaned)].
Proof.
  refine (proj2 (proj2 (first_loop_follows_decisions (St := unit) (keep 5)
            (steady (100 * Hour)) false jenkins_jobs
            [pr_activity; c_activity] ∅ (start tt)))
            {[ "c"%string := [1] ]} _).
  vm_compute. reflexivity.
Defined.

(** X2. When the first loop completes, the builds it has collected for a
    pipeline are the converted build fields of the activities of that
    pipeline that it did not delete as age-expired (orphans included), one
    per activity and in the order of the snapshot; a pipeline without such an
    activity has no entry in the map. *)
Theorem collected_builds {St : Type} `{!ActivityStore St}
    (o : GCActivitiesOptions) (rt : Runtime) (prowEnabled : bool)
    (jobNames : list string) (items : list PipelineActivity)
    (m : gmap string (list Z)) (w w' : World St) :
  scan o rt prowEnabled jobNames items ∅ w = (Done m, w') ->
  forall pipeline : string,
    let mine :=
      filter (fun a => Pipeline a = pipeline)
        (survivors o rt (ticks w) items) in
    (mine = [] -> m !! pipeline = None) /\
    (mine <> [] ->
     exists builds,
       m !! pipeline = Some builds /\
       Some <$> builds = (fun a => Atoi (Build a)) <$> mine).
Proof.
  intros Hs pipeline mine.
  destruct (scan_groups o rt _ _ _ _ _ _ _ Hs) as [_ Hg].
  specialize (Hg pipeline). rewrite lookup_empty in Hg. simpl in Hg.
  fold mine in Hg. unfold builds_of in Hg. fold mine in Hg.
  assert (Hne : forall p bs, m !! p = Some bs -> bs <> []).
  { eapply scan_nonempty; [|exact Hs]. intros p bs. by rewrite lookup_empty. }
  destruct (m !! pipeline) as [bs|] eqn:Hm; simpl in Hg.
  - split.
    + intros Hnil. rewrite Hnil in Hg. simpl in Hg.
      apply fmap_nil_inv in Hg. by destruct (Hne _ _ Hm).
    + intros _. by exists bs.
  - split; [done|]. intros Hmine. symmetry in Hg.
    apply fmap_nil_inv in Hg. done.
Qed.

Lemma collected_builds_witness :
  exists builds,
    ({[ "c"%string := [1; 2] ]} : gmap string (list Z)) !! "c"%string
      = Some builds /\
    Some <$> builds = [Some 1; Some 2].
Proof.
  refine (proj2 (collected_builds (St := unit) (keep 5) (steady (100 * Hour))
            false jenkins_jobs [c_activity; pr_activity; c_activity_2]
            {[ "c"%string := [1; 2] ]} (start tt)
            (mkWorld tt 1
               [(Name c_activity, Orphaned); (Name pr_activity, AgeExpired);
                (Name c_activity_2, Orphaned)])
            _ "c"%string) _).
  - vm_compute. reflexivity.
  - vm_compute. discriminate.
Defined.

(** X3. A run that returns the error of a [Delete] call has issued that call
    last, and the store is as that call found it (the same call would fail
    again): an error of the first loop comes back as it is, from an
    age-expiry or orphan deletion of an activity of the snapshot; an error
    of the revision cap comes back wrapped, from an over-limit deletion. *)
Theorem failed_delete_is_last {St : Type} `{!ActivityStore St}
    (o : GCActivitiesOptions) (rt : Runtime) (items : list PipelineActivity)
    (prowEnabled : bool) (jobs : list string) (w : World St) (name : string) :
  let r := Run o rt items prowEnabled jobs w in
  (r.1 = Fail (ClientError name) ->
   Delete name (store r.2) = None /\
   (exists a, a ∈ items /\ Name a = name) /\
   exists pre why,
     why <> OverLimit /\ issued w r.2 = pre ++ [(name, why)]) /\
  (r.1 = Fail (FailedToDelete name) ->
   Delete name (store r.2) = None /\
   exists pre, issued w r.2 = pre ++ [(name, OverLimit)]).
Proof.
  cbv zeta.
  destruct (Run o rt items prowEnabled jobs w) as [out w'] eqn:Hr. simpl.
  split; intros ->.
  - destruct (Run_fail _ _ _ _ _ _ _ _ Hr)
      as [(a & _ & [=] & _)|
          [(a & why & pre & Ha & [= ->] & Hw & Hpl & Hd)|
           (n & pre & [=] & _)]].
    split; [done|]. split; [by exists a|].
    exists pre, why. split; [done|]. by apply issued_app.
  - destruct (Run_fail _ _ _ _ _ _ _ _ Hr)
      as [(a & _ & [=] & _)|
          [(a & why & pre & _ & [=] & _)|
           (n & pre & [= ->] & Hpl & Hd)]].
    split; [done|]. exists pre. by apply issued_app.
Qed.

Lemma failed_delete_is_last_witness :
  Delete "c-1"
    (store (Run (keep 1) (steady 0) [c_activity; c_activity_2] false
              jenkins_jobs (start ["c-1"; "c-2"]%string)).2) = None.
Proof.
  refine (proj1 (proj2 (failed_delete_is_last (St := list string) (keep 1)
            (steady 0) [c_activity; c_activity_2] false jenkins_jobs
            (start ["c-1"; "c-2"]%string) "c-1") _)).
  vm_compute. reflexivity.
Defined.

(** X4. A run that returns a conversion error returns it for the build field
    of an activity of the snapshot that [strconv.Atoi] rejects, and has not
    issued any over-limit deletion: the revision cap does not start before
    every build field the first loop looks at has been converted. *)
Theorem conversion_error_provenance {St : Type} `{!ActivityStore St}
    (o : GCActivitiesOptions) (rt : Runtime) (items : list PipelineActivity)
    (prowEnabled : bool) (jobs : list string) (w : World St) (s : string) :
  let r := Run o rt items prowEnabled jobs w in
  r.1 = Fail (NumError s) ->
  (exists a, a ∈ items /\ Build a = s) /\
  Atoi s = None /\
  Forall (fun d : Deletion => d.2 <> OverLimit) (issued w r.2).
Proof.
  cbv zeta.
  destruct (Run o rt items prowEnabled jobs w) as [out w'] eqn:Hr. simpl.
  intros ->.
  destruct (Run_fail _ _ _ _ _ _ _ _ Hr)
    as [(a & Ha & [= ->] & Hn & Hall)|
        [(a & why & pre & _ & [=] & _)|(n & pre & [=] & _)]].
  split; [by exists a|]. by split.
Qed.

Lemma conversion_error_provenance_witness :
  Atoi "x" = None.
Proof.
  refine (proj1 (proj2 (conversion_error_provenance (St := unit) (keep 5)
            (steady 0) [c_activity; d_activity_bad_build] true []
            (start tt) "x" _))).
  vm_compute. reflexivity.
Defined.

(** ** The revision cap over the collected builds *)

Section Cap.

Context {St : Type} `{!ActivityStore St}.
Variable o : GCActivitiesOptions.
Variable rt : Runtime.

(** Every deletion of the loop over the map is named after a group it was
    given and a build of that group. *)
Lemma capAll_names groups (w : World St) :
  exists extra,
    plan (capAll o rt groups w).2 = plan w ++ extra /\
    Forall (fun d : Deletion =>
              exists pipeline builds b,
                (pipeline, builds) ∈ groups /\ b ∈ builds /\
                d = (activityName rt pipeline b, OverLimit))
           extra.
Proof.
  revert w. induction groups as [|[pipeline builds] groups IH]; intros w; simpl.
  - exists []. by rewrite app_nil_r.
  - unfold bind, capGroup.
    destruct (capLoop_plan o rt pipeline (sortInts builds)
                (S (length (sortInts builds))) 0 w)
      as (e1 & He1 & Hf1).
    assert (Hf1' : Forall (fun d : Deletion =>
              exists p bs b,
                (p, bs) ∈ (pipeline, builds) :: groups /\ b ∈ bs /\
                d = (activityName rt p b, OverLimit)) e1).
    { eapply Forall_impl; [exact Hf1|]. intros d (b & Hb & ->).
      exists pipeline, builds, b. split; [apply list_elem_of_here|].
      split; [|done]. unfold sortInts in Hb.
      by rewrite merge_sort_Permutation in Hb. }
    destruct (capLoop _ _ _ _ _ _ w) as [[[]| |] w']; simpl in *;
      try (exists e1; by split).
    destruct (IH w') as (e2 & He2 & Hf2).
    exists (e1 ++ e2). split.
    + by rewrite He2, He1, app_assoc.
    + apply Forall_app. split; [done|].
      eapply Forall_impl; [exact Hf2|].
      intros d (p & bs & b & Hin & Hb & ->). exists p, bs, b.
      split; [by apply list_elem_of_further|done].
Qed.

(** A group that does not exceed the limit is left alone. *)
Lemma capGroup_quiet pipeline builds (w : World St) :
  len builds <= RevisionHistoryLimit o <= int_max ->
  capGroup o rt pipeline builds w = (Done tt, w).
Proof.
  intros Hl. unfold capGroup. rewrite capLoop_S.
  assert (Hb : wrap_int (len (sortInts builds) - RevisionHistoryLimit o) <= 0).
  { unfold len. rewrite length_sortInts. pose proof (len_nonneg builds).
    rewrite wrap_int_id; unfold len, is_int, int_min, int_max in *; lia. }
  destruct (0 <? _) eqn:Hc; [|done]. apply Z.ltb_lt in Hc. lia.
Qed.

Lemma capAll_quiet groups (w : World St) :
  RevisionHistoryLimit o <= int_max ->
  Forall (fun g : string * list Z => len g.2 <= RevisionHistoryLimit o) groups ->
  capAll o rt groups w = (Done tt, w).
Proof.
  intros Hl. induction groups as [|[pipeline builds] groups IH]; intros Hall;
    simpl; [done|].
  inversion Hall as [|? ? Hg Hrest]; subst. simpl in Hg.
  unfold bind. rewrite capGroup_quiet by lia. by apply IH.
Qed.

End Cap.

(** X5. When a [range] visits the entries of the map and nothing else, every
    over-limit deletion of a run is issued under the name derived from the
    pipeline and the converted build field of an activity of the snapshot:
    the revision cap makes up no pipeline and no build number. *)
Theorem over_limit_targets_snapshot {St : Type} `{!ActivityStore St}
    (o : GCActivitiesOptions) (rt : Runtime) (items : list PipelineActivity)
    (prowEnabled : bool) (jobs : list string) (w : World St) :
  range_valid rt ->
  Forall (fun d : Deletion =>
            d.2 = OverLimit ->
            exists a n,
              a ∈ items /\ Atoi (Build a) = Some n /\
              d.1 = activityName rt (Pipeline a) n)
    (issued w (Run o rt items prowEnabled jobs w).2).
Proof.
  intros Hv. unfold Run. destruct items as [|a0 items].
  { simpl. unfold issued. by rewrite drop_all. }
  set (jobNames := if prowEnabled then [] else jobs).
  unfold bind.
  destruct (scan_plan o rt prowEnabled jobNames (a0 :: items) ∅ w)
    as (first & Hf & Hall).
  assert (Hfirst : Forall (fun d : Deletion =>
            d.2 = OverLimit ->
            exists a n,
              a ∈ a0 :: items /\ Atoi (Build a) = Some n /\
              d.1 = activityName rt (Pipeline a) n) first).
  { eapply Forall_impl; [exact Hall|].
    intros d (y & _ & _ & [Hd|(Hd & _)]) Ho; congruence. }
  destruct (scan o rt prowEnabled jobNames (a0 :: items) ∅ w)
    as [[m| |] w1] eqn:Hs; simpl in Hf;
    try (simpl; by rewrite (issued_app _ _ _ Hf)).
  destruct (capAll_names o rt (RangeOrder rt m) w1) as (capped & Hc & Hnames).
  rewrite (issued_app w _ (first ++ capped))
    by (by rewrite Hc, Hf, app_assoc).
  apply Forall_app. split; [done|].
  eapply Forall_impl; [exact Hnames|].
  intros d (p & bs & b & Hin & Hb & ->) _.
  rewrite (Hv m) in Hin. apply elem_of_map_to_list in Hin.
  pose proof (scan_groups_empty o rt _ _ _ _ _ _ p bs Hs Hin) as Hg.
  assert (Hsome : Some b ∈ Some <$> bs) by (by apply list_elem_of_fmap_2).
  rewrite Hg in Hsome. unfold builds_of in Hsome.
  apply list_elem_of_fmap in Hsome as (a & Ha & Hmine).
  apply list_elem_of_filter in Hmine as [<- Hsurv].
  exists a, b. split; [exact (survivors_subseteq o rt _ _ a Hsurv)|].
  by split.
Qed.

Lemma over_limit_targets_snapshot_witness :
  Forall (fun d : Deletion =>
            d.2 = OverLimit ->
            exists a n,
              a ∈ [c_activity; c_activity_2] /\ Atoi (Build a) = Some n /\
              d.1 = activityName (steady 0) (Pipeline a) n)
    (issued (start tt)
       (Run (keep 1) (steady 0) [c_activity; c_activity_2] true []
          (start tt)).2).
Proof.
  apply (over_limit_targets_snapshot (St := unit)).
  intros m. reflexivity.
Defined.

(** Over activities that are neither pull-request runs nor orphans the first
    loop issues nothing and does not read the clock; it can only stop on a
    build field. *)
Lemma scan_quiet {St : Type} `{!ActivityStore St} o rt prowEnabled jobNames
    items m (w : World St) :
  Forall (fun a => Contains (Name a) "-pr-" = false /\
                   orphan prowEnabled jobNames a = false) items ->
  (exists m', scan o rt prowEnabled jobNames items m w = (Done m', w)) \/
  (exists a, a ∈ items /\ Atoi (Build a) = None /\
     scan o rt prowEnabled jobNames items m w = (Fail (NumError (Build a)), w)).
Proof.
  revert m. induction items as [|a items IH]; intros m Hall; simpl.
  - left. by exists m.
  - inversion Hall as [|? ? [Hpr Horph] Hrest]; subst.
    unfold bind. rewrite visit_eq.
    assert (Hage : age_expired o (Now rt (ticks w)) a = false)
      by (unfold age_expired; by rewrite Hpr).
    assert (Hw : after_check a w = w).
    { unfold after_check, readings. rewrite Hpr, Nat.add_0_r. by destruct w. }
    rewrite Hage, Horph, Hw. unfold bind, ret, atoi, raise.
    destruct (Atoi (Build a)) as [n|] eqn:Hn.
    + destruct (IH (<[Pipeline a := default [] (m !! Pipeline a) ++ [n]]> m)
                  Hrest) as [[m' Hs]|(x & Hx & Hxn & Hs)].
      * left. exists m'. exact Hs.
      * right. exists x. split; [by apply list_elem_of_further|]. by split.
    + right. exists a. split; [apply list_elem_of_here|]. by split.
Qed.

(** X6. A snapshot with no pull-request activity and no orphan (prow enabled,
    or every pipeline a Jenkins job) in which no pipeline has more
    activities than the revision history limit is left untouched: the run
    issues no [Delete] call and does not read the clock, and it ends well
    unless a build field fails to convert. *)
Theorem snapshot_within_limit_untouched {St : Type} `{!ActivityStore St}
    (o : GCActivitiesOptions) (rt : Runtime) (items : list PipelineActivity)
    (prowEnabled : bool) (jobs : list string) (w : World St) :
  range_valid rt ->
  Forall (fun a => Contains (Name a) "-pr-" = false /\
                   orphan prowEnabled (if prowEnabled then [] else jobs) a
                     = false) items ->
  (forall pipeline : string,
      len (filter (fun a => Pipeline a = pipeline) items)
        <= RevisionHistoryLimit o) ->
  RevisionHistoryLimit o <= int_max ->
  let r := Run o rt items prowEnabled jobs w in
  r.2 = w /\
  (r.1 = Done tt \/
   exists a, a ∈ items /\ Atoi (Build a) = None /\
             r.1 = Fail (NumError (Build a))).
Proof.
  intros Hv Hall Hcount Hl. cbv zeta. unfold Run.
  destruct items as [|a0 items]; [by split; [|left]|].
  set (jobNames := if prowEnabled then [] else jobs) in *.
  unfold bind.
  destruct (scan_quiet o rt prowEnabled jobNames (a0 :: items) ∅ w Hall)
    as [[m Hs]|(x & Hx & Hxn & Hs)]; rewrite Hs.
  - rewrite capAll_quiet; [by split; [|left]|done|].
    apply Forall_forall. intros [p bs] Hin. simpl.
    rewrite (Hv m) in Hin. apply elem_of_map_to_list in Hin.
    pose proof (scan_groups_empty o rt _ _ _ _ _ _ p bs Hs Hin) as Hg.
    rewrite survivors_no_marker in Hg
      by (eapply Forall_impl; [exact Hall|]; by intros a [Ha _]).
    specialize (Hcount p). unfold len in *.
    assert (Hlen : length bs
                   = length (filter (fun a => Pipeline a = p) (a0 :: items))).
    { rewrite <- (length_fmap Some bs), Hg. unfold builds_of.
      by rewrite length_fmap. }
    lia.
  - simpl. split; [done|]. right. by exists x.
Qed.

Lemma snapshot_within_limit_untouched_witness :
  (Run (keep 5) (steady 0) [c_activity; c_activity_2; d_activity] true []
     (start ["c-1"; "c-2"; "d-2"]%string)).2
  = start ["c-1"; "c-2"; "d-2"]%string.
Proof.
  refine (proj1 (snapshot_within_limit_untouched (St := list string) (keep 5)
            (steady 0) [c_activity; c_activity_2; d_activity] true []
            (start ["c-1"; "c-2"; "d-2"]%string) _ _ _ _)).
  - intros m. reflexivity.
  - repeat (apply Forall_cons; split; [by vm_compute|]). apply Forall_nil_2.
  - intros pipeline. unfold len.
    pose proof (length_filter (fun a => Pipeline a = pipeline)
                  [c_activity; c_activity_2; d_activity]) as Hle.
    simpl in *. lia.
  - vm_compute. discriminate.
Defined.

(** ** The revision cap on one group *)

Lemma issued_mkWorld {St : Type} (w : World St) (s : St) (t : nat)
    (extra : list Deletion) :
  issued w (mkWorld s t (plan w ++ extra)) = extra.
Proof. by apply issued_app. Qed.

(** The number of builds below the loop bound shrinks as the limit grows. *)
Lemma over_limit_prefix o o' rt pipeline builds :
  0 <= RevisionHistoryLimit o <= RevisionHistoryLimit o' ->
  RevisionHistoryLimit o' <= int_max ->
  len builds <= int_max ->
  over_limit o' rt pipeline builds `prefix_of` over_limit o rt pipeline builds.
Proof.
  intros Hl Hmax Hn. unfold over_limit.
  pose proof (len_nonneg builds) as H0.
  rewrite !wrap_int_id by (unfold is_int, int_min, int_max in *; lia).
  set (n := Z.to_nat (len builds - RevisionHistoryLimit o)).
  set (n' := Z.to_nat (len builds - RevisionHistoryLimit o')).
  replace (take n' (sortInts builds))
    with (take n' (take n (sortInts builds)))
    by (rewrite take_take; f_equal; lia).
  rewrite (fmap_take _ n'). apply prefix_take.
Qed.

(** X7. Raising the revision history limit never deletes more: against a
    store that accepts every call, the deletions the revision cap issues
    for a group under the larger limit are the first of those it issues
    under the smaller one. *)
Theorem larger_limit_deletes_fewer (o o' : GCActivitiesOptions) (rt : Runtime)
    (pipeline : string) (builds : list Z) (w : World unit) :
  0 <= RevisionHistoryLimit o <= RevisionHistoryLimit o' ->
  RevisionHistoryLimit o' <= int_max ->
  len builds <= int_max ->
  issued w (capGroup o' rt pipeline builds w).2
    `prefix_of` issued w (capGroup o rt pipeline builds w).2.
Proof.
  intros Hl Hmax Hn.
  rewrite !capGroup_accept by lia. simpl.
  rewrite !issued_mkWorld.
  by apply over_limit_prefix.
Qed.

Lemma larger_limit_deletes_fewer_witness :
  issued (start tt)
    (capGroup (keep 5) (steady 0) "app" [1; 2; 3; 4; 5; 6; 7] (start tt)).2
  `prefix_of`
  issued (start tt)
    (capGroup (keep 3) (steady 0) "app" [1; 2; 3; 4; 5; 6; 7] (start tt)).2.
Proof.
  apply (larger_limit_deletes_fewer (keep 3) (keep 5)).
  - vm_compute. split; discriminate.
  - vm_compute. discriminate.
  - vm_compute. discriminate.
Defined.

(** X8. The revision cap deletes the oldest builds of a group: against a
    store that accepts every call it deletes the names of the first
    [count - limit] sorted builds, each of which is at most as large as every
    build it keeps, and deleted and kept builds together are the builds of
    the group. *)
Theorem kept_builds_are_newest (o : GCActivitiesOptions) (rt : Runtime)
    (pipeline : string) (builds : list Z) (w : World unit) :
  0 <= RevisionHistoryLimit o <= int_max ->
  len builds <= int_max ->
  let n := Z.to_nat (len builds - RevisionHistoryLimit o) in
  let deleted := take n (sortInts builds) in
  let kept := drop n (sortInts builds) in
  issued w (capGroup o rt pipeline builds w).2 =
    ((fun b => (activityName rt pipeline b, OverLimit)) <$> deleted) /\
  deleted ++ kept ≡ₚ builds /\
  (forall b b' : Z, b ∈ deleted -> b' ∈ kept -> b <= b').
Proof.
  intros Hl Hn. cbv zeta.
  pose proof (len_nonneg builds) as H0.
  split; [|split].
  - rewrite capGroup_accept by done. simpl. rewrite issued_mkWorld.
    unfold over_limit.
    by rewrite wrap_int_id by (unfold is_int, int_min, int_max in *; lia).
  - rewrite take_drop. apply merge_sort_Permutation.
  - intros b b' Hb Hb'.
    pose proof (Sorted_merge_sort Z.le builds) as Hs.
    apply (Sorted_StronglySorted Z.le) in Hs.
    fold (sortInts builds) in Hs.
    rewrite <- (take_drop (Z.to_nat (len builds - RevisionHistoryLimit o))
                  (sortInts builds)) in Hs.
    by apply (StronglySorted_app_1_elem_of Z.le _ _ b b' Hs).
Qed.

Lemma kept_builds_are_newest_witness : (3 <= 7)%Z.
Proof.
  refine (proj2 (proj2 (kept_builds_are_newest (keep 2) (steady 0) "app"
            [12; 3; 7] (start tt) _ _)) 3 7 _ _).
  - vm_compute. split; discriminate.
  - vm_compute. discriminate.
  - refine (bool_decide_unpack _ _). vm_compute. exact I.
  - refine (bool_decide_unpack _ _). vm_compute. exact I.
Defined.

(** With a negative limit and the subtraction not wrapping around, the loop
    deletes from index [i] to the end of the slice before it reads out of
    range. *)
Lemma capLoop_overrun_plan o rt pipeline builds fuel i (w : World unit) :
  len builds < wrap_int (len builds - RevisionHistoryLimit o) ->
  0 <= i <= len builds ->
  len builds + 1 <= Z.of_nat fuel + i ->
  capLoop o rt pipeline builds fuel i w =
  (Panic,
   mkWorld tt (ticks w)
     (plan w ++
      ((fun b => (activityName rt pipeline b, OverLimit)) <$>
       drop (Z.to_nat i) builds))).
Proof.
  intros Hb. revert i w. induction fuel as [|fuel IH]; intros i [[] t p] Hi Hf.
  - lia.
  - rewrite capLoop_S.
    destruct (i <? _) eqn:Hc; [|apply Z.ltb_ge in Hc; lia].
    destruct (builds !! Z.to_nat i) as [b|] eqn:Hlk.
    + pose proof (lookup_lt_Some _ _ _ Hlk) as Hlt.
      unfold bind, deleteActivity; simpl.
      rewrite IH by (unfold len in *; lia). simpl.
      rewrite (drop_S _ _ _ Hlk), fmap_cons, <- app_assoc. simpl.
      by replace (Z.to_nat (i + 1)) with (S (Z.to_nat i)) by lia.
    + apply lookup_ge_None in Hlk. unfold panic.
      rewrite drop_ge by done. by rewrite fmap_nil, app_nil_r.
Qed.

(** X9. With a negative revision history limit (the subtraction of the loop
    bound not wrapping around) and a store that accepts every call, the
    revision cap deletes every build of the group it is working on, down to
    the most recent one, and only then panics on the read out of range. *)
Theorem negative_limit_deletes_whole_group (o : GCActivitiesOptions)
    (rt : Runtime) (pipeline : string) (builds : list Z) (w : World unit) :
  RevisionHistoryLimit o < 0 ->
  len builds - RevisionHistoryLimit o <= int_max ->
  capGroup o rt pipeline builds w =
  (Panic,
   mkWorld tt (ticks w)
     (plan w ++
      ((fun b => (activityName rt pipeline b, OverLimit)) <$>
       sortInts builds))).
Proof.
  intros Hneg Hfit. unfold capGroup.
  pose proof (len_nonneg (sortInts builds)) as H0.
  rewrite capLoop_overrun_plan; [done| |lia|unfold len; lia].
  unfold len in *. rewrite length_sortInts.
  rewrite wrap_int_id; [lia|]. unfold is_int, int_min, int_max in *. lia.
Qed.

Lemma negative_limit_deletes_whole_group_witness :
  capGroup (keep (-1)) (steady 0) "app" [2; 1] (start tt) =
  (Panic,
   mkWorld tt 0 [("app-1"%string, OverLimit); ("app-2"%string, OverLimit)]).
Proof.
  rewrite (negative_limit_deletes_whole_group (keep (-1)) (steady 0) "app"
             [2; 1] (start tt)).
  - vm_compute. reflexivity.
  - vm_compute. reflexivity.
  - vm_compute. discriminate.
Defined.

(** ** Build numbers and names *)

Lemma digit_of_pretty_N_char (d : N) :
  (d < 10)%N -> digit_of (pretty_N_char d) = Some (Z.of_N d).
Proof.
  intros Hd.
  assert (H : (d = 0 \/ d = 1 \/ d = 2 \/ d = 3 \/ d = 4 \/ d = 5 \/
               d = 6 \/ d = 7 \/ d = 8 \/ d = 9)%N) by lia.
  repeat (destruct H as [->|H]; [reflexivity|]). by subst.
Qed.

(** Reading back the digits that [pretty] puts in front of a string. *)
Lemma parse_digits_pretty_N_go (x : N) (s : string) (k : Z) :
  exists e : Z,
    0 <= e /\
    parse_digits (pretty_N_go x s) k = parse_digits s (k * 10 ^ e + Z.of_N x).
Proof.
  revert s k. induction (N.lt_wf_0 x) as [x _ IH]; intros s k.
  assert (x = 0 \/ 0 < x)%N as [->|Hpos] by lia.
  - exists 0. split; [done|]. rewrite pretty_N_go_0. f_equal. lia.
  - rewrite pretty_N_go_step by done.
    destruct (IH (x `div` 10)%N ltac:(by apply N.div_lt)
                (String (pretty_N_char (x `mod` 10)) s) k) as (e & He & ->).
    exists (e + 1). split; [lia|]. simpl.
    rewrite digit_of_pretty_N_char by (by apply N.mod_lt).
    f_equal. rewrite Z.pow_add_r by lia.
    rewrite N2Z.inj_div, N2Z.inj_mod. simpl Z.of_N.
    pose proof (Z.div_mod (Z.of_N x) 10 ltac:(lia)). lia.
Qed.

Lemma Atoi_digits (s : string) (n : Z) :
  s <> EmptyString -> parse_digits s 0 = Some n -> is_int n ->
  Atoi s = Some n.
Proof.
  intros Hne Hp Hn. destruct s as [|c s]; [done|].
  unfold Atoi. simpl in Hp.
  destruct (digit_of c) as [d|] eqn:Hd; [|done].
  assert (Ascii.eqb c "-" = false) as ->.
  { apply Ascii.eqb_neq. intros ->. vm_compute in Hd. discriminate. }
  assert (Ascii.eqb c "+" = false) as ->.
  { apply Ascii.eqb_neq. intros ->. vm_compute in Hd. discriminate. }
  simpl. rewrite Hd, Hp. unfold in_int.
  destruct Hn as [H1 H2]. apply Z.leb_le in H1, H2. by rewrite H1, H2.
Qed.

Lemma pretty_positive_digits (q : positive) :
  pretty_N_go (N.pos q) "" <> EmptyString /\
  parse_digits (pretty_N_go (N.pos q) "") 0 = Some (Z.pos q).
Proof.
  destruct (parse_digits_pretty_N_go (N.pos q) "" 0) as (e & _ & He).
  simpl in He. split; [|done].
  intros Hs. rewrite Hs in He. simpl in He. discriminate.
Qed.

Lemma Atoi_pretty (n : Z) : is_int n -> Atoi (pretty n) = Some n.
Proof.
  intros Hn. destruct n as [|q|q].
  - reflexivity.
  - destruct (pretty_positive_digits q) as [Hne Hp].
    change (pretty (Z.pos q)) with (pretty_N_go (N.pos q) "").
    by apply Atoi_digits.
  - destruct (pretty_positive_digits q) as [Hne Hp].
    change (pretty (Z.neg q)) with (String "-" (pretty_N_go (N.pos q) "")).
    unfold Atoi. simpl.
    destruct (pretty_N_go (N.pos q) "") as [|c s] eqn:Hs; [done|].
    unfold parse_unsigned. rewrite Hp. unfold in_int.
    destruct Hn as [H1 H2]. apply Z.leb_le in H1, H2.
    change (- Z.pos q) with (Z.neg q). by rewrite H1, H2.
Qed.

Lemma Atoi_is_int (s : string) (n : Z) : Atoi s = Some n -> is_int n.
Proof.
  unfold Atoi. destruct s as [|c s]; [done|].
  destruct (parse_unsigned _) as [k|]; [|done].
  unfold in_int.
  destruct (_ && _) eqn:Hr; [|done]. intros [= <-].
  apply andb_prop in Hr as [H1 H2]. by apply Z.leb_le in H1, H2.
Qed.

(** X10. The build number that the revision cap writes into a name converts
    back to itself: for every build field that [strconv.Atoi] accepts, the
    number it yields is an [int], and its rendering by [%v] is accepted in
    turn and yields the same number, whatever sign or leading zeros the
    field had. *)
Theorem build_number_round_trip (s : string) (n : Z) :
  Atoi s = Some n ->
  is_int n /\ Atoi (pretty n) = Some n.
Proof.
  intros Hs. pose proof (Atoi_is_int s n Hs) as Hn.
  split; [done|]. by apply Atoi_pretty.
Qed.

Lemma build_number_round_trip_witness :
  is_int 7 /\ Atoi (pretty 7) = Some 7.
Proof.
  apply (build_number_round_trip "+007" 7). vm_compute. reflexivity.
Defined.

Lemma dash_separators_app (s1 s2 : string) :
  dash_separators (s1 ++ s2) = (dash_separators s1 ++ dash_separators s2)%string.
Proof. induction s1 as [|c s1 IH]; simpl; [done|]. by rewrite IH. Qed.

Lemma dash_separators_idemp (s : string) :
  dash_separators (dash_separators s) = dash_separators s.
Proof.
  induction s as [|c s IH]; simpl; [done|]. rewrite IH. f_equal.
  destruct c as [[] [] [] [] [] [] [] []]; vm_compute; reflexivity.
Qed.

Lemma lower_ascii_app (s1 s2 : string) :
  lower_ascii (s1 ++ s2) = (lower_ascii s1 ++ lower_ascii s2)%string.
Proof. induction s1 as [|c s1 IH]; simpl; [done|]. by rewrite IH. Qed.

Lemma isASCII_app (s1 s2 : string) :
  isASCII (s1 ++ s2) = isASCII s1 && isASCII s2.
Proof.
  induction s1 as [|c s1 IH]; simpl; [done|]. by rewrite IH, andb_assoc.
Qed.

Lemma isASCII_dash_separators (s : string) :
  isASCII (dash_separators s) = isASCII s.
Proof.
  rewrite <- Replace_dash_separators. rewrite !isASCII_Replace by auto. done.
Qed.

Lemma isASCII_lower_ascii (s : string) : isASCII (lower_ascii s) = isASCII s.
Proof.
  induction s as [|c s IH]; simpl; [done|]. rewrite IH. f_equal.
  destruct c as [[] [] [] [] [] [] [] []]; vm_compute; reflexivity.
Qed.

Lemma lower_dash_lower (s : string) :
  lower_ascii (dash_separators (lower_ascii s)) =
  lower_ascii (dash_separators s).
Proof.
  induction s as [|c s IH]; simpl; [done|]. rewrite IH. f_equal.
  destruct c as [[] [] [] [] [] [] [] []]; vm_compute; reflexivity.
Qed.

Lemma name_byte_lower_dash (s : string) :
  all_bytes name_byte (lower_ascii (dash_separators s)) = true.
Proof.
  induction s as [|c s IH]; simpl; [done|]. rewrite IH, andb_true_r.
  destruct c as [[] [] [] [] [] [] [] []]; vm_compute; reflexivity.
Qed.

(** The digits that [pretty] puts in front of an ASCII string. *)
Lemma isASCII_pretty_N_go (x : N) (s : string) :
  isASCII s = true -> isASCII (pretty_N_go x s) = true.
Proof.
  revert s. induction (N.lt_wf_0 x) as [x _ IH]; intros s Hs.
  assert (x = 0 \/ 0 < x)%N as [->|Hpos] by lia.
  - by rewrite pretty_N_go_0.
  - rewrite pretty_N_go_step by done.
    apply IH; [by apply N.div_lt|]. simpl. rewrite Hs, andb_true_r.
    assert (Hd : (x `mod` 10 < 10)%N) by (by apply N.mod_lt).
    set (d := (x `mod` 10)%N) in *. clearbody d.
    assert (H : (d = 0 \/ d = 1 \/ d = 2 \/ d = 3 \/ d = 4 \/ d = 5 \/
                 d = 6 \/ d = 7 \/ d = 8 \/ d = 9)%N) by lia.
    repeat (destruct H as [->|H]; [reflexivity|]). by subst.
Qed.

Lemma isASCII_pretty (n : Z) : isASCII (pretty n) = true.
Proof.
  destruct n as [|q|q].
  - reflexivity.
  - change (pretty (Z.pos q)) with (pretty_N_go (N.pos q) "").
    by apply isASCII_pretty_N_go.
  - change (pretty (Z.neg q)) with (String "-" (pretty_N_go (N.pos q) "")).
    simpl. by apply isASCII_pretty_N_go.
Qed.

(** The name for an ASCII pipeline, without the Unicode tables. *)
Lemma activityName_ascii (rt : Runtime) (pipeline : string) (build : Z) :
  isASCII pipeline = true ->
  activityName rt pipeline build =
  lower_ascii (dash_separators (pipeline ++ "-" ++ pretty build)).
Proof.
  intros Hp. rewrite activityName_spec. unfold spec_target_name, ToLower.
  rewrite isASCII_dash_separators, !isASCII_app, Hp, isASCII_pretty. done.
Qed.

(** X11. The derived names do not tell pipelines apart that differ only in
    [/], [_] and [-], or, for ASCII pipelines, in the case of their letters:
    such pipelines share their deletion targets, build by build. *)
Theorem target_names_alias (rt : Runtime) (pipeline : string) (build : Z) :
  activityName rt (dash_separators pipeline) build
    = activityName rt pipeline build /\
  (isASCII pipeline = true ->
   activityName rt (lower_ascii pipeline) build
     = activityName rt pipeline build).
Proof.
  split.
  - rewrite !activityName_spec. unfold spec_target_name.
    by rewrite !dash_separators_app, dash_separators_idemp.
  - intros Hp.
    rewrite !activityName_ascii by (by rewrite ?isASCII_lower_ascii).
    by rewrite !dash_separators_app, !lower_ascii_app, lower_dash_lower.
Qed.

Lemma target_names_alias_witness :
  activityName (steady 0) (lower_ascii "Acme/App") 3
  = activityName (steady 0) "Acme/App" 3.
Proof.
  apply (proj2 (target_names_alias (steady 0) "Acme/App" 3)).
  vm_compute. reflexivity.
Defined.

(** X12. The name derived for an ASCII pipeline and any build number
    contains no [/], no [_] and no upper-case ASCII letter. *)
Theorem target_name_bytes (rt : Runtime) (pipeline : string) (build : Z) :
  isASCII pipeline = true ->
  all_bytes name_byte (activityName rt pipeline build) = true.
Proof.
  intros Hp. rewrite activityName_ascii by done. apply name_byte_lower_dash.
Qed.

Lemma target_name_bytes_witness :
  all_bytes name_byte (activityName (steady 0) "Team/App_X" 42) = true.
Proof.
  apply target_name_bytes. vm_compute. reflexivity.
Defined.

(** ** The pull-request marker and the clock *)

Lemma prefix_app_iff (sub s : string) :
  String.prefix sub s = true <-> exists post, s = (sub ++ post)%string.
Proof.
  revert s. induction sub as [|c sub IH]; intros s; simpl.
  - destruct s; split; eauto.
  - destruct s as [|c' s]; simpl.
    + split; [done|]. by intros [post [=]].
    + destruct (ascii_dec c c') as [<-|Hne].
      * rewrite IH. split.
        -- intros [post ->]. by exists post.
        -- intros [post [= ->]]. by exists post.
      * split; [done|]. intros [post [= ? _]]. done.
Qed.

Lemma Contains_iff (s sub : string) :
  Contains s sub = true <->
  exists pre post, s = (pre ++ sub ++ post)%string.
Proof.
  induction s as [|c s IH].
  - change (Contains "" sub) with (String.prefix sub "" || false).
    rewrite orb_false_r, prefix_app_iff. split.
    + intros [post ->]. by exists EmptyString, post.
    + intros ([|? ?] & post & Heq); [by exists post|done].
  - change (Contains (String c s) sub)
      with (String.prefix sub (String c s) || Contains s sub).
    rewrite orb_true_iff, prefix_app_iff, IH. split.
    + intros [[post ->]|(pre & post & ->)].
      * by exists EmptyString, post.
      * by exists (String c pre), post.
    + intros ([|c' pre] & post & Heq).
      * left. by exists post.
      * right. injection Heq as -> ->. by exists pre, post.
Qed.

(** X13. The pull-request test looks for the marker anywhere in the name: an
    activity is handled as a pull-request run, and the clock read for it,
    exactly when its name is some text, then ["-pr-"], then some text, and it
    has a completion timestamp. *)
Theorem pull_request_marker_anywhere {St : Type} `{!ActivityStore St}
    (o : GCActivitiesOptions) (rt : Runtime) (a : PipelineActivity)
    (w : World St) :
  (Contains (Name a) "-pr-" = true <->
   exists pre post, Name a = (pre ++ "-pr-" ++ post)%string) /\
  (ticks (expired o rt a w).2 = S (ticks w) <->
   (exists pre post, Name a = (pre ++ "-pr-" ++ post)%string) /\
   CompletedTimestamp a <> None) /\
  (ticks (expired o rt a w).2 = ticks w \/
   ticks (expired o rt a w).2 = S (ticks w)).
Proof.
  split; [apply Contains_iff|].
  rewrite expired_exact. unfold after_check, readings. simpl.
  rewrite <- Contains_iff.
  destruct (Contains (Name a) "-pr-"), (CompletedTimestamp a); split;
    try (by left; lia); try (by right; lia); split;
    try (intros; lia); try (by intros [? ?]); intros _; (split; done).
Qed.

Lemma pull_request_marker_anywhere_witness :
  Contains "my-pr-oject-master-3" "-pr-" = true.
Proof.
  apply (proj1 (pull_request_marker_anywhere (St := unit) (keep 5) (steady 0)
                  {| Name := "my-pr-oject-master-3";
                     Pipeline := "acme/my-pr-oject/master";
                     Build := "3"; CompletedTimestamp := None |} (start tt))).
  by exists "my"%string, "oject-master-3"%string.
Defined.

Section Clock.

Context {St : Type} `{!ActivityStore St}.
Variable o : GCActivitiesOptions.

Lemma visit_ticks rt prowEnabled jobNames a m (w : World St) :
  ticks (visit o rt prowEnabled jobNames a m w).2 = (ticks w + readings a)%nat.
Proof.
  rewrite visit_eq. unfold bind, deleteActivity, atoi, raise, ret, after_check.
  destruct (age_expired _ _ _); simpl.
  - by destruct (Delete _ _).
  - destruct (orphan _ _ _); simpl.
    + destruct (Delete _ _); simpl; [|done]. by destruct (Atoi _).
    + by destruct (Atoi _).
Qed.

Lemma scan_ticks rt prowEnabled jobNames items m (w : World St) :
  (ticks w <= ticks (scan o rt prowEnabled jobNames items m w).2
           <= ticks w + readings_of items)%nat.
Proof.
  revert m w. induction items as [|a items IH]; intros m w; simpl; [lia|].
  unfold bind. pose proof (visit_ticks rt prowEnabled jobNames a m w) as Hv.
  destruct (visit _ _ _ _ _ _ _) as [[m1| |] w1]; simpl in *; try lia.
  specialize (IH m1 w1). lia.
Qed.

Lemma capLoop_ticks rt pipeline builds fuel i (w : World St) :
  ticks (capLoop o rt pipeline builds fuel i w).2 = ticks w.
Proof.
  revert i w. induction fuel as [|fuel IH]; intros i w; [done|].
  rewrite capLoop_S. destruct (i <? _); [|done].
  destruct (builds !! Z.to_nat i) as [b|]; [|done].
  unfold bind, deleteActivity. destruct (Delete _ _); simpl; [|done].
  by rewrite IH.
Qed.

Lemma capAll_ticks rt groups (w : World St) :
  ticks (capAll o rt groups w).2 = ticks w.
Proof.
  revert w. induction groups as [|[pipeline builds] groups IH]; intros w;
    simpl; [done|].
  unfold bind, capGroup.
  pose proof (capLoop_ticks rt pipeline (sortInts builds)
                (S (length (sortInts builds))) 0 w) as Hc.
  destruct (capLoop _ _ _ _ _ _ w) as [[[]| |] w1]; simpl in *; try done.
  by rewrite IH.
Qed.

(** An activity for which the clock is not read is not age-expired. *)
Lemma no_reading_not_expired now a :
  readings a = 0%nat -> age_expired o now a = false.
Proof.
  unfold readings, age_expired.
  destruct (Contains _ _); [|done]. by destruct (CompletedTimestamp a).
Qed.

Lemma scan_no_clock rt1 rt2 prowEnabled jobNames items m (w : World St) :
  readings_of items = 0%nat ->
  scan o rt1 prowEnabled jobNames items m w =
  scan o rt2 prowEnabled jobNames items m w.
Proof.
  revert m w. induction items as [|a items IH]; intros m w Hr; simpl; [done|].
  simpl in Hr. unfold bind. rewrite !visit_eq.
  rewrite !no_reading_not_expired by lia.
  destruct ((_ ;; _) (after_check a w)) as [[m1| |] w1]; [|done|done].
  apply IH. lia.
Qed.

Lemma capLoop_same_tables rt1 rt2 pipeline builds fuel i (w : World St) :
  UnicodeLower rt1 = UnicodeLower rt2 ->
  capLoop o rt1 pipeline builds fuel i w =
  capLoop o rt2 pipeline builds fuel i w.
Proof.
  intros Hu. revert i w. induction fuel as [|fuel IH]; intros i w; [done|].
  rewrite !capLoop_S. destruct (i <? _); [|done].
  destruct (builds !! Z.to_nat i) as [b|]; [|done].
  unfold bind, activityName. rewrite Hu.
  destruct (deleteActivity _ _ _ w) as [[[]| |] w1]; [|done|done].
  apply IH.
Qed.

Lemma capAll_same_tables rt1 rt2 groups (w : World St) :
  UnicodeLower rt1 = UnicodeLower rt2 ->
  capAll o rt1 groups w = capAll o rt2 groups w.
Proof.
  intros Hu. revert w.
  induction groups as [|[pipeline builds] groups IH]; intros w; simpl; [done|].
  unfold bind, capGroup.
  rewrite (capLoop_same_tables rt1 rt2 _ _ _ _ _ Hu).
  destruct (capLoop _ _ _ _ _ _ w) as [[[]| |] w1]; [|done|done].
  apply IH.
Qed.

End Clock.

(** X14. A run reads the clock only in the first loop, once for every
    activity it visits whose name has the pull-request marker and which has
    a completion timestamp: never more often than there are such activities
    in the snapshot, and exactly that often when it runs to its end. Over a
    snapshot without such an activity the run does not depend on the clock
    at all. *)
Theorem clock_read_per_completed_pull_request {St : Type} `{!ActivityStore St}
    (o : GCActivitiesOptions) (rt : Runtime) (items : list PipelineActivity)
    (prowEnabled : bool) (jobs : list string) (w : World St) :
  let r := Run o rt items prowEnabled jobs w in
  (ticks w <= ticks r.2 <= ticks w + readings_of items)%nat /\
  (r.1 = Done tt -> ticks r.2 = (ticks w + readings_of items)%nat) /\
  (readings_of items = 0%nat ->
   forall clock : nat -> Time,
     Run o {| Now := clock; RangeOrder := RangeOrder rt;
              UnicodeLower := UnicodeLower rt |}
       items prowEnabled jobs w = r).
Proof.
  cbv zeta. unfold Run. destruct items as [|a0 items].
  { simpl. split; [lia|]. split; [intros _; lia|done]. }
  set (jobNames := if prowEnabled then [] else jobs).
  split; [|split].
  - unfold bind.
    pose proof (scan_ticks o rt prowEnabled jobNames (a0 :: items) ∅ w) as Hs.
    destruct (scan _ _ _ _ _ _ _) as [[m| |] w1]; simpl in *; try lia.
    rewrite capAll_ticks. lia.
  - unfold bind.
    destruct (scan o rt prowEnabled jobNames (a0 :: items) ∅ w)
      as [[m| |] w1] eqn:Hs; [|done|done].
    intros _. rewrite capAll_ticks.
    by destruct (scan_groups o rt _ _ _ _ _ _ _ Hs) as [-> _].
  - intros Hr clock. unfold bind.
    rewrite (scan_no_clock o _ rt prowEnabled jobNames (a0 :: items) ∅ w Hr).
    destruct (scan o rt _ _ _ _ _) as [[m| |] w1]; [|done|done].
    simpl. by apply capAll_same_tables.
Qed.

Lemma clock_read_per_completed_pull_request_witness :
  Run (keep 1) {| Now := fun n => Z.of_nat n * Hour;
                  RangeOrder := RangeOrder (steady 0);
                  UnicodeLower := UnicodeLower (steady 0) |}
    [c_activity; c_activity_2; d_activity] true [] (start tt)
  = Run (keep 1) (steady 0) [c_activity; c_activity_2; d_activity] true []
      (start tt).
Proof.
  apply (proj2 (proj2 (clock_read_per_completed_pull_request (St := unit)
           (keep 1) (steady 0) [c_activity; c_activity_2; d_activity] true []
           (start tt)))).
  vm_compute. reflexivity.
Defined.

Lemma age_expired_issued o now prowEnabled jobNames a :
  (Name a, AgeExpired) ∈ visit_deletions o now prowEnabled jobNames a <->
  age_expired o now a = true.
Proof.
  unfold visit_deletions. destruct (age_expired o now a).
  - split; [done|]. intros _. apply list_elem_of_here.
  - split; [|done]. destruct (orphan _ _ _).
    + intros Hin%list_elem_of_singleton. discriminate.
    + by intros Hin%elem_of_nil.
Qed.

(** X15. Age expiry is monotone: a pull-request activity that is deleted as
    age-expired at some clock reading under some window is also deleted at
    any later reading and under any shorter window (windows that fit a
    duration, that is, of at most 2562047 hours). *)
Theorem expiry_is_monotone {St : Type} `{!ActivityStore St}
    (o o' : GCActivitiesOptions) (rt rt' : Runtime) (prowEnabled : bool)
    (jobNames : list string) (a : PipelineActivity)
    (m m' : gmap string (list Z)) (w w' : World St) :
  Now rt (ticks w) <= Now rt' (ticks w') ->
  0 <= PullRequestHours o' <= PullRequestHours o ->
  PullRequestHours o <= 2562047 ->
  (Name a, AgeExpired) ∈ issued w (visit o rt prowEnabled jobNames a m w).2 ->
  (Name a, AgeExpired)
    ∈ issued w' (visit o' rt' prowEnabled jobNames a m' w').2.
Proof.
  intros Hnow Hh Hmax. rewrite !visit_issued, !age_expired_issued.
  unfold age_expired, Before, Add.
  rewrite !hours_exact by lia.
  destruct (Contains _ _); [|done]. simpl.
  destruct (CompletedTimestamp a) as [t|]; [|done].
  rewrite !Z.ltb_lt. unfold Hour. nia.
Qed.

Lemma expiry_is_monotone_witness :
  (Name pr_activity, AgeExpired)
    ∈ issued (start tt)
        (visit (keep 5) (steady (200 * Hour)) true [] pr_activity ∅
           (start tt)).2.
Proof.
  refine (expiry_is_monotone (St := unit) (keep 5) (keep 5)
            (steady (100 * Hour)) (steady (200 * Hour)) true [] pr_activity
            ∅ ∅ (start tt) (start tt) _ _ _ _).
  - vm_compute. discriminate.
  - vm_compute. split; discriminate.
  - vm_compute. discriminate.
  - rewrite visit_issued.
    replace (visit_deletions _ _ _ _ _)
      with [(Name pr_activity, AgeExpired)] by (vm_compute; reflexivity).
    apply list_elem_of_here.
Defined.

(** ** Runs against a store that refuses nothing *)

Section Willing.

Context {St : Type} `{!ActivityStore St}.
Variable o : GCActivitiesOptions.
Variable rt : Runtime.
Hypothesis willing : forall (name : string) (s : St), Delete name s <> None.

(** A turn of the first loop then fails only on the build field. *)
Lemma visit_willing prowEnabled jobNames a m (w : World St) :
  exists w1 : World St,
    ticks w1 = (ticks w + readings a)%nat /\
    visit o rt prowEnabled jobNames a m w =
    (if age_expired o (Now rt (ticks w)) a then Done m
     else
       match Atoi (Build a) with
       | Some n =>
           Done (<[Pipeline a := default [] (m !! Pipeline a) ++ [n]]> m)
       | None => Fail (NumError (Build a))
       end,
     w1).
Proof.
  rewrite visit_eq. destruct (age_expired _ _ _).
  - unfold bind, deleteActivity, ret, after_check. simpl.
    destruct (Delete (Name a) (store w)) as [s'|] eqn:Hd;
      [|by destruct (willing _ _ Hd)].
    eexists. split; [|reflexivity]. done.
  - unfold bind, deleteActivity, atoi, raise, ret, after_check. simpl.
    destruct (orphan _ _ _); simpl.
    + destruct (Delete (Name a) (store w)) as [s'|] eqn:Hd;
        [|by destruct (willing _ _ Hd)].
      simpl. destruct (Atoi (Build a)); eexists; (split; [|reflexivity]); done.
    + destruct (Atoi (Build a)); eexists; (split; [|reflexivity]); done.
Qed.

(** The first loop then stops only on a build field, that of the first
    surviving activity whose build field does not convert. *)
Lemma scan_willing prowEnabled jobNames items m (w : World St) :
  let r := scan o rt prowEnabled jobNames items m w in
  ((exists m', r.1 = Done m') /\
   Forall (fun a => Atoi (Build a) <> None) (survivors o rt (ticks w) items)) \/
  (exists a,
      a ∈ survivors o rt (ticks w) items /\ Atoi (Build a) = None /\
      r.1 = Fail (NumError (Build a))).
Proof.
  revert m w. induction items as [|a items IH]; intros m w; cbv zeta; simpl.
  - left. split; [by exists m|apply Forall_nil_2].
  - unfold bind.
    destruct (visit_willing prowEnabled jobNames a m w) as (w1 & Ht & ->).
    destruct (age_expired o (Now rt (ticks w)) a).
    + specialize (IH m w1). cbv zeta in IH. by rewrite Ht in IH.
    + destruct (Atoi (Build a)) as [n|] eqn:Hn.
      * specialize (IH (<[Pipeline a := default [] (m !! Pipeline a) ++ [n]]> m)
                      w1).
        cbv zeta in IH. rewrite Ht in IH.
        destruct IH as [[Hd Hall]|(x & Hx & Hxn & Hf)].
        -- left. split; [done|]. apply Forall_cons. split; [congruence|done].
        -- right. exists x. split; [by apply list_elem_of_further|done].
      * right. exists a. split; [apply list_elem_of_here|done].
Qed.

Lemma capAll_willing groups (w : World St) :
  0 <= RevisionHistoryLimit o <= int_max ->
  (capAll o rt groups w).1 = Done tt.
Proof.
  intros Hl. destruct (capAll o rt groups w) as [[[]| |] w'] eqn:Hc; [done| |].
  - destruct (capAll_fail o rt _ _ _ _ Hc) as (name & pre & _ & _ & Hd).
    by destruct (willing _ _ Hd).
  - pose proof (capAll_no_panic o rt groups w Hl) as Hp.
    rewrite Hc in Hp. done.
Qed.

End Willing.

(** X16. Against a store that refuses no [Delete] call and with a revision
    history limit that is not negative, a run ends well exactly when the
    build field of every activity that the age-expiry branch does not delete
    converts to an integer; otherwise it returns the conversion error of such
    an activity. It never returns another error and never panics. *)
Theorem run_succeeds_iff_builds_convert {St : Type} `{!ActivityStore St}
    (o : GCActivitiesOptions) (rt : Runtime) (items : list PipelineActivity)
    (prowEnabled : bool) (jobs : list string) (w : World St) :
  (forall (name : string) (s : St), Delete name s <> None) ->
  0 <= RevisionHistoryLimit o <= int_max ->
  let r := Run o rt items prowEnabled jobs w in
  let kept := survivors o rt (ticks w) items in
  (r.1 = Done tt <-> Forall (fun a => Atoi (Build a) <> None) kept) /\
  (r.1 = Done tt \/
   exists a, a ∈ kept /\ Atoi (Build a) = None /\
             r.1 = Fail (NumError (Build a))).
Proof.
  intros Hw Hl. cbv zeta. unfold Run. destruct items as [|a0 items].
  { simpl. split; [|by left]. split; [intros _; apply Forall_nil_2|done]. }
  set (jobNames := if prowEnabled then [] else jobs).
  unfold bind.
  destruct (scan_willing o rt Hw prowEnabled jobNames (a0 :: items) ∅ w)
    as [[[m Hd] Hall]|(x & Hx & Hxn & Hf)]; cbv zeta in *.
  - destruct (scan o rt prowEnabled jobNames (a0 :: items) ∅ w)
      as [[m1| |] w1]; simpl in Hd; try done.
    pose proof (capAll_willing o rt Hw (RangeOrder rt m1) w1 Hl) as Hc.
    split; [by split|by left].
  - destruct (scan o rt prowEnabled jobNames (a0 :: items) ∅ w)
      as [[m1| |] w1]; simpl in Hf; try done.
    injection Hf as ->. simpl. split.
    + split; [done|]. intros Hall.
      rewrite Forall_forall in Hall. by destruct (Hall x Hx).
    + right. by exists x.
Qed.

Lemma run_succeeds_iff_builds_convert_witness :
  (Run (keep 5) (steady (100 * Hour))
     [pr_activity_bad_build; c_activity; d_activity] true [] (start tt)).1
  = Done tt.
Proof.
  refine (proj2 (proj1 (run_succeeds_iff_builds_convert (St := unit) (keep 5)
            (steady (100 * Hour)) [pr_activity_bad_build; c_activity; d_activity]
            true [] (start tt) _ _)) _).
  - intros name s. discriminate.
  - vm_compute. split; discriminate.
  - repeat (apply Forall_cons; split; [by vm_compute|]). apply Forall_nil_2.
Defined.

(** ** The plan of a completed run *)

Lemma bind_ext_Forall {A B : Type} (f g : A -> list B) (l : list A) :
  Forall (fun x => f x = g x) l -> l ≫= f = l ≫= g.
Proof.
  induction 1 as [|x l Hx _ IH]; [done|]. by rewrite !bind_cons, Hx, IH.
Qed.

Lemma length_builds_of pipeline items :
  (length (builds_of pipeline items) <= length items)%nat.
Proof.
  unfold builds_of. rewrite length_fmap. apply length_filter.
Qed.

(** X17. A run that ends well has issued, after the deletions the first loop
    decides on, the deletions of the loop over the map and nothing else. The
    map has one group for each pipeline of which an activity got past the
    age-expiry branch: the converted build fields of these activities,
    orphans included. The groups are capped one after the other, each
    pipeline once: of a group of [count] builds the run deletes, in
    ascending order of the builds, the [count - RevisionHistoryLimit]
    smallest ones, under the name derived from the pipeline and the build,
    and none when [count <= RevisionHistoryLimit]. *)
Theorem run_caps_every_group {St : Type} `{!ActivityStore St}
    (o : GCActivitiesOptions) (rt : Runtime) (items : list PipelineActivity)
    (prowEnabled : bool) (jobs : list string) (w : World St) :
  range_valid rt ->
  0 <= RevisionHistoryLimit o <= int_max ->
  len items <= int_max ->
  let jobNames := if prowEnabled then [] else jobs in
  let r := Run o rt items prowEnabled jobs w in
  let kept := survivors o rt (ticks w) items in
  r.1 = Done tt ->
  exists groups : list (string * list Z),
    NoDup groups.*1 /\
    (forall (pipeline : string) (builds : list Z),
        (pipeline, builds) ∈ groups <->
        builds <> [] /\ Some <$> builds = builds_of pipeline kept) /\
    issued w r.2 =
      decisions o rt (ticks w) prowEnabled jobNames items ++
      (groups ≫= fun g =>
         (fun b => (activityName rt g.1 b, OverLimit)) <$>
           take (Z.to_nat (len g.2 - RevisionHistoryLimit o))
             (sortInts g.2)).
Proof.
  intros Hv Hl Hn. cbv zeta. unfold Run. destruct items as [|a0 items].
  { intros _. exists []. split; [apply NoDup_nil_2|]. split.
    - intros p bs. split; [by intros ?%elem_of_nil|].
      intros [Hne He]. by destruct bs.
    - simpl. apply issued_app. by rewrite app_nil_r. }
  cbv beta iota zeta.
  remember (a0 :: items) as all eqn:Eall.
  set (jobNames := if prowEnabled then [] else jobs).
  unfold bind.
  destruct (scan_decisions o rt prowEnabled jobNames all ∅ w) as [_ Hdec].
  cbv zeta in Hdec.
  destruct (scan o rt prowEnabled jobNames all ∅ w) as [[m| |] w1] eqn:Hs;
    [|done|done].
  specialize (Hdec m eq_refl). cbn [fst snd] in Hdec.
  destruct (capAll o rt (RangeOrder rt m) w1) as [out w2] eqn:Hc.
  cbn [fst snd]. intros ->.
  pose proof (capAll_done o rt _ _ _ Hl Hc) as Hplan.
  assert (Hg : forall p : string,
    Some <$> default [] (m !! p) =
    builds_of p (survivors o rt (ticks w) all)).
  { intros p. destruct (scan_groups o rt _ _ _ _ _ _ _ Hs) as [_ Hg].
    specialize (Hg p). by rewrite lookup_empty in Hg. }
  assert (Hin : forall p bs,
    (p, bs) ∈ RangeOrder rt m <-> m !! p = Some bs).
  { intros p bs. rewrite (Hv m). apply elem_of_map_to_list. }
  exists (RangeOrder rt m). split; [|split].
  - rewrite (Hv m). apply NoDup_fst_map_to_list.
  - intros p bs. rewrite Hin. specialize (Hg p). split.
    + intros Hm. split.
      * apply (scan_nonempty o rt _ _ _ _ _ _ _
                 (fun p0 bs0 H0 => match lookup_empty_Some _ _ H0 with end)
                 Hs p bs Hm).
      * by rewrite Hm in Hg.
    + intros [Hne He]. destruct (m !! p) as [bs'|] eqn:Hm.
      * f_equal. apply (inj (fmap Some)). by rewrite He.
      * rewrite <- He in Hg. by destruct bs.
  - assert (Hi : issued w w2 =
               issued w w1 ++
               (RangeOrder rt m ≫= fun g => over_limit o rt g.1 g.2)).
    { destruct (scan_plan o rt prowEnabled jobNames all ∅ w)
        as (first & Hf & _).
      rewrite Hs in Hf. cbn [fst snd] in Hf.
      rewrite (issued_app _ _ _ Hf). apply issued_app.
      by rewrite Hplan, Hf, app_assoc. }
    rewrite Hi, Hdec. f_equal. apply bind_ext_Forall.
    apply Forall_forall. intros [p bs] Hpb. cbn [fst snd].
    apply Hin in Hpb. unfold over_limit. rewrite wrap_int_id; [done|].
    specialize (Hg p). rewrite Hpb in Hg.
    assert (length bs <= length all)%nat.
    { rewrite <- (length_fmap Some bs).
      change (Some <$> bs) with (Some <$> default [] (Some bs)).
      rewrite Hg.
      etrans; [apply length_builds_of|apply length_survivors]. }
    pose proof (len_nonneg bs).
    unfold is_int, int_min, int_max, len in *. lia.
Qed.

Lemma run_caps_every_group_witness :
  exists groups : list (string * list Z),
    NoDup groups.*1 /\
    (forall (pipeline : string) (builds : list Z),
        (pipeline, builds) ∈ groups <->
        builds <> [] /\
        Some <$> builds =
        builds_of pipeline (survivors (keep 5) (steady 0) 0 seven_builds)) /\
    issued (start tt)
      (Run (keep 5) (steady 0) seven_builds true [] (start tt)).2 =
      decisions (keep 5) (steady 0) 0 true [] seven_builds ++
      (groups ≫= fun g =>
         (fun b => (activityName (steady 0) g.1 b, OverLimit)) <$>
           take (Z.to_nat (len g.2 - 5)) (sortInts g.2)).
Proof.
  refine (run_caps_every_group (St := unit) (keep 5) (steady 0) seven_builds
            true [] (start tt) _ _ _ _).
  - intros m. reflexivity.
  - vm_compute. split; discriminate.
  - vm_compute. discriminate.
  - vm_compute. reflexivity.
Defined.

(** X18. The body of the loop over the map, run on the builds of one
    group, which number [count] once sorted ascending: when
    [count > RevisionHistoryLimit] it marks exactly the entries at the sorted
    indices [0 .. count - RevisionHistoryLimit - 1] and keeps the
    [RevisionHistoryLimit] largest builds; when
    [count <= RevisionHistoryLimit] it marks none; with a limit of 0 it marks
    the whole group. Against any store the body issues these deletions in
    order and nothing else, all of them when it runs to its end, as it does
    when the store accepts every call. Builds [1..7] lose builds 1 and 2
    under a limit of 5 and nothing under a limit of 10. *)
Theorem revision_cap_exact {St : Type} `{!ActivityStore St}
    (o : GCActivitiesOptions) (rt : Runtime)
    (pipeline : string) (builds : list Z) (w : World St) :
  0 <= RevisionHistoryLimit o <= int_max ->
  len builds <= int_max ->
  let limit := RevisionHistoryLimit o in
  let count := len builds in
  let sorted := sortInts builds in
  let marked := take (Z.to_nat (count - limit)) sorted in
  let kept := drop (Z.to_nat (count - limit)) sorted in
  let named := (fun b => (activityName rt pipeline b, OverLimit)) <$> marked in
  let r := capGroup o rt pipeline builds w in
  (Sorted Z.le sorted /\ sorted ≡ₚ builds) /\
  (issued w r.2 `prefix_of` named) /\
  (r.1 = Done tt -> issued w r.2 = named) /\
  (forall w0 : World unit,
      capGroup o rt pipeline builds w0 =
      (Done tt, mkWorld tt (ticks w0) (plan w0 ++ named))) /\
  (limit < count ->
     len marked = count - limit /\ len kept = limit /\
     forall i : nat, Z.of_nat i < count - limit -> marked !! i = sorted !! i) /\
  (count <= limit -> marked = []) /\
  (limit = 0 -> marked = sorted) /\
  (forall w0 : World unit,
      capGroup (keep 5) rt pipeline [1; 2; 3; 4; 5; 6; 7] w0 =
      (Done tt,
       mkWorld tt (ticks w0)
         (plan w0 ++ [(activityName rt pipeline 1, OverLimit);
                      (activityName rt pipeline 2, OverLimit)]))) /\
  (forall w0 : World unit,
      capGroup (keep 10) rt pipeline [1; 2; 3; 4; 5; 6; 7] w0 =
      (Done tt, mkWorld tt (ticks w0) (plan w0))).
Proof.
  intros Hl Hn. cbv zeta.
  assert (Hlen : length (sortInts builds) = length builds)
    by apply length_sortInts.
  assert (Hw : wrap_int (len builds - RevisionHistoryLimit o)
               = len builds - RevisionHistoryLimit o).
  { apply wrap_int_id. pose proof (len_nonneg builds).
    unfold is_int, int_min, int_max in *. lia. }
  pose proof (capGroup_run o rt pipeline builds w Hl) as Hrun.
  cbv zeta in Hrun. unfold over_limit in Hrun. rewrite Hw in Hrun.
  split; [split|]; [apply (Sorted_merge_sort Z.le)|apply merge_sort_Permutation|].
  split.
  { destruct Hrun as [[_ Hp]|(k & name & _ & _ & Hp)];
      rewrite (issued_app _ _ _ Hp); [done|].
    apply prefix_take. }
  split.
  { intros Hd. destruct Hrun as [[_ Hp]|(k & name & Hf & _ & _)].
    - by apply issued_app.
    - congruence. }
  split.
  { intros w0. rewrite capGroup_accept by done. unfold over_limit.
    by rewrite Hw. }
  split.
  { intros Hlt. unfold len in *.
    rewrite length_take, length_drop, Hlen.
    split; [lia|]. split; [lia|].
    intros i Hi. apply lookup_take_lt. lia. }
  split.
  { intros Hle. replace (Z.to_nat _) with 0%nat by lia. apply take_0. }
  split.
  { intros H0. apply take_ge. unfold len in *. lia. }
  split.
  - intros w0. rewrite capGroup_accept by (vm_compute; split; discriminate).
    unfold over_limit.
    replace (take _ _) with [1; 2] by (vm_compute; reflexivity).
    by destruct w0.
  - intros w0. rewrite capGroup_accept by (vm_compute; split; discriminate).
    unfold over_limit.
    replace (take _ _) with (@nil Z) by (vm_compute; reflexivity).
    simpl. by rewrite app_nil_r.
Qed.

Lemma revision_cap_exact_witness :
  capGroup (keep 2) (steady 0) "org/app/master" [12; 3; 7] (start tt) =
  (Done tt,
   mkWorld tt 0 [("org-app-master-3"%string, OverLimit)]).
Proof.
  pose proof (revision_cap_exact (St := unit) (keep 2) (steady 0)
                "org/app/master" [12; 3; 7] (start tt)) as H.
  cbv zeta in H.
  destruct H as (_ & _ & _ & H & _).
  - vm_compute. split; discriminate.
  - vm_compute. discriminate.
  - rewrite H. vm_compute. reflexivity.
Defined.
